(** * Hy compiler front end: tokenizer and arena allocator

    A shallow embedding of [src/tokenization.hpp] and [src/arena.hpp],
    followed by the properties of the two components.

    - [std::string] is [string]; [char] is [ascii]; indices ([size_t]) are
      [nat] (an index never exceeds the length of the source, see
      [TokenizerProofs.index_le_length]).
    - [Tokenizer::tokenize] is written in a small state-and-failure monad;
      its [while] loops go through one fuelled combinator, [while_], and
      the fuel handed out is shown to be enough.
    - Addresses and [size_t] values of the arena are [Z], with the 64-bit
      wrap-around written out. *)

From Stdlib Require Import ZArith Lia Ascii String.
From stdpp Require Import base strings gmap.

Local Open Scope Z_scope.

(** ** Token kinds ([enum class TokenType]) *)

Module TokenType.
Inductive t : Set :=
| exit
| int_lit
| semi
| open_paren
| close_paren
| ident
| let_
| eq
| plus
| star
| minus
| fslash
| open_curly
| close_curly
| if_
| elif
| else_
| colon
| for_.
End TokenType.

Abbreviation TokenType := TokenType.t.

Module Tokenization.

(** [bin_prec]: [std::optional<int>], the empty optional being [None]. *)
Definition bin_prec (type : TokenType) : option Z :=
  match type with
  | TokenType.minus | TokenType.plus => Some 0
  | TokenType.fslash | TokenType.star => Some 1
  | _ => None
  end.

(** [int]: 32 bits, two's complement.  A value of the type is a [Z] from
    [-2^31] up to [2^31 - 1]; [int_wrap] brings the result of an
    operation back into that range.  (Signed overflow is undefined in
    C++; the wrap is what the two's-complement machines the program is
    built for do.) *)
Definition int_wrap (x : Z) : Z := (x + 2 ^ 31) mod 2 ^ 32 - 2 ^ 31.

(** [struct Token].  [line] is an [int]: every token is built from the
    value of [line_count], which [line_count_in_int_range] shows to be in
    the range of [int]. *)
Record Token : Set := mkToken {
  type : TokenType;
  line : Z;
  value : option string
}.

(** ** Character classes

    Modelled from the spec: the [<cctype>] predicates [std::isalpha],
    [std::isdigit], [std::isalnum] and [std::isspace] are library routines,
    not code of the repository; the spec fixes them as the ASCII
    predicates (the "C" locale). *)

Definition code (c : ascii) : N := N_of_ascii c.

Definition isupper (c : ascii) : bool := ((65 <=? code c) && (code c <=? 90))%N.
Definition islower (c : ascii) : bool := ((97 <=? code c) && (code c <=? 122))%N.
Definition isalpha (c : ascii) : bool := isupper c || islower c.
Definition isdigit (c : ascii) : bool := ((48 <=? code c) && (code c <=? 57))%N.
Definition isalnum (c : ascii) : bool := isalpha c || isdigit c.
(** space, and the control characters [\t \n \v \f \r] (9 to 13) *)
Definition isspace (c : ascii) : bool :=
  ((code c =? 32) || ((9 <=? code c) && (code c <=? 13)))%N.

Definition newline : ascii := "010"%char.

(** ** Outcomes

    What can end a call early: the range error of [std::string::at], the
    access error of [std::optional::value], and [exit(EXIT_FAILURE)].
    [out_of_fuel] belongs to the model only: [fuel_is_enough] shows that
    [tokenize] never ends with it. *)
Inductive failure : Set :=
| out_of_range
| bad_optional_access
| exit_failure
| out_of_fuel.

Inductive result (A : Type) : Type :=
| Ok (a : A)
| Fail (e : failure).
Arguments Ok {A} a.
Arguments Fail {A} e.

(** The member [m_index] and the locals of [tokenize]. *)
Record state : Set := mkState {
  m_index : nat;
  tokens : list Token;
  buf : string;
  line_count : Z
}.

Definition M (A : Type) : Type := state -> result (A * state).

Definition ret {A} (a : A) : M A := fun s => Ok (a, s).
Definition bind {A B} (m : M A) (k : A -> M B) : M B :=
  fun s => match m s with
           | Ok (a, s') => k a s'
           | Fail e => Fail e
           end.
Definition throw {A} (e : failure) : M A := fun _ => Fail e.

Notation "x <- m ;; k" := (bind m (fun x => k))
  (at level 100, m at next level, right associativity).
Notation "m ;;; k" := (bind m (fun _ => k))
  (at level 100, right associativity).

(** [while (cond) body], at most [fuel] evaluations of [cond]. *)
Fixpoint while_ (fuel : nat) (cond : M bool) (body : M unit) : M unit :=
  match fuel with
  | O => throw out_of_fuel
  | S fuel' =>
      b <- cond ;;
      if b then body ;;; while_ fuel' cond body else ret tt
  end.

(** [std::optional]: [has_value] and [value]. *)
Definition has_value {A} (o : option A) : bool :=
  match o with Some _ => true | None => false end.
Definition value_of {A} (o : option A) : M A :=
  match o with Some a => ret a | None => throw bad_optional_access end.

(** Updates of the locals. *)
Definition tokens_push_back (tok : Token) : M unit :=
  fun s => Ok (tt, mkState (m_index s) (tokens s ++ [tok]) (buf s) (line_count s)).
Definition buf_push_back (c : ascii) : M unit :=
  fun s => Ok (tt, mkState (m_index s) (tokens s)
                     (buf s +:+ String c EmptyString) (line_count s)).
Definition buf_clear : M unit :=
  fun s => Ok (tt, mkState (m_index s) (tokens s) EmptyString (line_count s)).
(** [line_count++], on an [int] *)
Definition line_count_incr : M unit :=
  fun s => Ok (tt, mkState (m_index s) (tokens s) (buf s)
                     (int_wrap (line_count s + 1))).
Definition get_buf : M string := fun s => Ok (buf s, s).
Definition get_line_count : M Z := fun s => Ok (line_count s, s).
Definition get_tokens : M (list Token) := fun s => Ok (tokens s, s).
Definition set_m_index (i : nat) : M unit :=
  fun s => Ok (tt, mkState i (tokens s) (buf s) (line_count s)).

Section Tokenizer.

(** [const std::string m_src] *)
Variable m_src : string.

(** [std::string::at] *)
Definition at_ (pos : nat) : M ascii :=
  match String.get pos m_src with
  | Some c => ret c
  | None => throw out_of_range
  end.

Definition peek (offset : nat) : M (option ascii) :=
  fun s =>
    if (String.length m_src <=? m_index s + offset)%nat then ret None s
    else (c <- at_ (m_index s + offset) ;; ret (Some c)) s.

Definition consume : M ascii :=
  fun s =>
    (c <- at_ (m_index s) ;;
     set_m_index (S (m_index s)) ;;;
     ret c) s.

(** [peek(offset).has_value() && peek(offset).value() == ch] *)
Definition peek_is (offset : nat) (ch : ascii) : M bool :=
  o <- peek offset ;;
  if has_value o then (c <- value_of o ;; ret (Ascii.eqb c ch)) else ret false.

(** [peek().has_value() && p(peek().value())] *)
Definition peek_sat (p : ascii -> bool) : M bool :=
  o <- peek 0%nat ;;
  if has_value o then (c <- value_of o ;; ret (p c)) else ret false.

(** Every loop of [tokenize] consumes a character in each round, so none
    evaluates its condition more than [length m_src + 1] times. *)
Definition fuel : nat := S (String.length m_src).

(** [tokens.push_back({ type, line_count })] *)
Definition emit (ty : TokenType) : M unit :=
  l <- get_line_count ;; tokens_push_back (mkToken ty l None).

(** [tokens.push_back({ type, line_count, buf })] *)
Definition emit_buf (ty : TokenType) : M unit :=
  l <- get_line_count ;; b <- get_buf ;; tokens_push_back (mkToken ty l (Some b)).

(** One round of the outer loop of [tokenize] (lines 113 to 232).
    [peek()] is a [const] member, so the character the branches test is
    read once; the [break] of the block-comment loop is part of the
    condition of that loop. *)
Definition tokenize_body : M unit :=
  c <- (o <- peek 0%nat ;; value_of o) ;;
  if isalpha c then
    (c <- consume ;; buf_push_back c) ;;;
    while_ fuel (peek_sat isalnum) (c <- consume ;; buf_push_back c) ;;;
    b <- get_buf ;;
    if String.eqb b "exit" then emit TokenType.exit ;;; buf_clear
    else if String.eqb b "let" then emit TokenType.let_ ;;; buf_clear
    else if String.eqb b "if" then emit TokenType.if_ ;;; buf_clear
    else if String.eqb b "elif" then emit TokenType.elif ;;; buf_clear
    else if String.eqb b "else" then emit TokenType.else_ ;;; buf_clear
    else if String.eqb b "for" then emit TokenType.for_ ;;; buf_clear
    else emit_buf TokenType.ident ;;; buf_clear
  else if isdigit c then
    (c <- consume ;; buf_push_back c) ;;;
    while_ fuel (peek_sat isdigit) (c <- consume ;; buf_push_back c) ;;;
    emit_buf TokenType.int_lit ;;; buf_clear
  else
    line_comment <- (if Ascii.eqb c "/" then peek_is 1 "/" else ret false) ;;
    if line_comment then
      consume ;;; consume ;;;
      while_ fuel (peek_sat (fun c => negb (Ascii.eqb c newline))) (consume ;;; ret tt)
    else
    block_comment <- (if Ascii.eqb c "/" then peek_is 1 "*" else ret false) ;;
    if block_comment then
      consume ;;; consume ;;;
      (* the loop leaves by [break] on a closing pair *)
      while_ fuel
        (o <- peek 0%nat ;;
         if has_value o then
           star <- peek_is 0 "*" ;;
           closing <- (if star then peek_is 1 "/" else ret false) ;;
           ret (negb closing)
         else ret false)
        (consume ;;; ret tt) ;;;
      (o <- peek 0%nat ;; if has_value o then consume ;;; ret tt else ret tt) ;;;
      (o <- peek 0%nat ;; if has_value o then consume ;;; ret tt else ret tt)
    else if Ascii.eqb c "(" then consume ;;; emit TokenType.open_paren
    else if Ascii.eqb c ")" then consume ;;; emit TokenType.close_paren
    else if Ascii.eqb c ";" then consume ;;; emit TokenType.semi
    else if Ascii.eqb c "=" then consume ;;; emit TokenType.eq
    else if Ascii.eqb c "+" then consume ;;; emit TokenType.plus
    else if Ascii.eqb c "*" then consume ;;; emit TokenType.star
    else if Ascii.eqb c "-" then consume ;;; emit TokenType.minus
    else if Ascii.eqb c "/" then consume ;;; emit TokenType.fslash
    else if Ascii.eqb c "{" then consume ;;; emit TokenType.open_curly
    else if Ascii.eqb c "}" then consume ;;; emit TokenType.close_curly
    else if Ascii.eqb c ":" then consume ;;; emit TokenType.colon
    else if Ascii.eqb c newline then consume ;;; line_count_incr
    else if isspace c then consume ;;; ret tt
    else throw exit_failure.

(** The outer loop: [while (peek().has_value()) { ... }]. *)
Definition tokenize_loop : M unit :=
  while_ fuel (o <- peek 0%nat ;; ret (has_value o)) tokenize_body.

(** [Tokenizer::tokenize], run on the state at entry. *)
Definition tokenize : M (list Token) :=
  tokenize_loop ;;;
  set_m_index 0 ;;;
  get_tokens.

End Tokenizer.

(** The locals at the entry of [tokenize]; [m_index] is 0 in a fresh
    [Tokenizer] and is set back to 0 before [tokenize] returns. *)
Definition entry : state := mkState 0 [] EmptyString 1.

(** [Tokenizer(src).tokenize()] *)
Definition run_tokenize (src : string) : result (list Token) :=
  match tokenize src entry with
  | Ok (ts, _) => Ok ts
  | Fail e => Fail e
  end.

(** ** Vocabulary of the properties *)

(** The reserved spellings and their kinds. *)
Definition keywords : list (string * TokenType) :=
  [("exit", TokenType.exit); ("let", TokenType.let_); ("if", TokenType.if_);
   ("elif", TokenType.elif); ("else", TokenType.else_); ("for", TokenType.for_)].

(** The single-character lexemes and their kinds. *)
Definition punctuation : list (ascii * TokenType) :=
  [("("%char, TokenType.open_paren); (")"%char, TokenType.close_paren);
   (";"%char, TokenType.semi); ("="%char, TokenType.eq);
   ("+"%char, TokenType.plus); ("*"%char, TokenType.star);
   ("-"%char, TokenType.minus); ("/"%char, TokenType.fslash);
   ("{"%char, TokenType.open_curly); ("}"%char, TokenType.close_curly);
   (":"%char, TokenType.colon)].

(** A character of one of the categories the scanner knows: a letter, a
    digit, a single-character lexeme (the comment openers start with one),
    a newline, or other white space. *)
Definition recognized (c : ascii) : bool :=
  isalpha c || isdigit c
  || existsb (fun p => Ascii.eqb c (fst p)) punctuation
  || Ascii.eqb c newline || isspace c.

(** A comment opener, [//] or [/*], at index [k] of [src]. *)
Definition opener_at (src : string) (k : nat) : Prop :=
  String.get k src = Some "/"%char /\
  (String.get (S k) src = Some "/"%char \/ String.get (S k) src = Some "*"%char).

(** A closing pair [*/] at index [k] of [src]. *)
Definition closing_at (src : string) (k : nat) : Prop :=
  String.get k src = Some "*"%char /\ String.get (S k) src = Some "/"%char.

(** The character at index [i] of [src] exists and satisfies [p]: the
    condition of the loops over a run of characters. *)
Definition sat_at (src : string) (p : ascii -> bool) (i : nat) : bool :=
  match String.get i src with Some c => p c | None => false end.

(** The character at index [k] of [src] exists and does not start a
    closing pair: the condition of the loop over a block comment. *)
Definition not_closing (src : string) (k : nat) : bool :=
  match String.get k src with
  | Some d => negb (if Ascii.eqb d "*" then sat_at src (fun e => Ascii.eqb e "/") (S k)
                    else false)
  | None => false
  end.

(** The states the outer loop of [tokenize] goes through, at the top of a
    round. *)
Inductive reaches (src : string) : state -> Prop :=
| reaches_entry : reaches src entry
| reaches_round (s s' : state) :
    reaches src s ->
    (m_index s < String.length src)%nat ->
    tokenize_body src s = Ok (tt, s') ->
    reaches src s'.

(** The kind of a word: the keyword it spells, if any. *)
Definition keyword_of (b : string) : option TokenType :=
  option_map snd (List.find (fun p => String.eqb b (fst p)) keywords).

(** The token of a word [b] on line [l]. *)
Definition word_token (b : string) (l : Z) : Token :=
  match keyword_of b with
  | Some k => mkToken k l None
  | None => mkToken TokenType.ident l (Some b)
  end.

(** One round of the outer loop, by the category of the character under
    the cursor: what a round started in [s] (with an empty [buf]) ends
    with. *)
Inductive round (src : string) (s : state) : result (unit * state) -> Prop :=
| round_word (c : ascii) (j : nat) :
    String.get (m_index s) src = Some c -> isalpha c = true ->
    (m_index s < j <= String.length src)%nat ->
    (forall k, (m_index s < k < j)%nat ->
       exists d, String.get k src = Some d /\ isalnum d = true) ->
    (forall d, String.get j src = Some d -> isalnum d = false) ->
    round src s
      (Ok (tt, mkState j
             (tokens s ++ [word_token (String.substring (m_index s) (j - m_index s) src)
                                      (line_count s)])
             EmptyString (line_count s)))
| round_number (c : ascii) (j : nat) :
    String.get (m_index s) src = Some c -> isalpha c = false -> isdigit c = true ->
    (m_index s < j <= String.length src)%nat ->
    (forall k, (m_index s < k < j)%nat ->
       exists d, String.get k src = Some d /\ isdigit d = true) ->
    (forall d, String.get j src = Some d -> isdigit d = false) ->
    round src s
      (Ok (tt, mkState j
             (tokens s ++ [mkToken TokenType.int_lit (line_count s)
                             (Some (String.substring (m_index s) (j - m_index s) src))])
             EmptyString (line_count s)))
| round_line_comment (j : nat) :
    String.get (m_index s) src = Some "/"%char ->
    String.get (S (m_index s)) src = Some "/"%char ->
    (S (S (m_index s)) <= j <= String.length src)%nat ->
    (forall k, (S (S (m_index s)) <= k < j)%nat -> String.get k src <> Some newline) ->
    (String.get j src = None \/ String.get j src = Some newline) ->
    round src s (Ok (tt, mkState j (tokens s) EmptyString (line_count s)))
| round_block_comment (j : nat) :
    String.get (m_index s) src = Some "/"%char ->
    String.get (S (m_index s)) src = Some "*"%char ->
    (S (S (m_index s)) <= j <= String.length src)%nat ->
    (forall k, (S (S (m_index s)) <= k < j)%nat -> ~ closing_at src k) ->
    (closing_at src j \/ j = String.length src) ->
    round src s
      (Ok (tt, mkState (Nat.min (j + 2) (String.length src))
             (tokens s) EmptyString (line_count s)))
| round_punctuation (c : ascii) (ty : TokenType) :
    String.get (m_index s) src = Some c ->
    In (c, ty) punctuation ->
    ~ opener_at src (m_index s) ->
    round src s
      (Ok (tt, mkState (S (m_index s))
             (tokens s ++ [mkToken ty (line_count s) None])
             EmptyString (line_count s)))
| round_newline :
    String.get (m_index s) src = Some newline ->
    round src s
      (Ok (tt, mkState (S (m_index s)) (tokens s) EmptyString
             (int_wrap (line_count s + 1))))
| round_space (c : ascii) :
    String.get (m_index s) src = Some c ->
    isspace c = true -> c <> newline ->
    round src s (Ok (tt, mkState (S (m_index s)) (tokens s) EmptyString (line_count s)))
| round_unrecognized (c : ascii) :
    String.get (m_index s) src = Some c ->
    recognized c = false ->
    round src s (Fail exit_failure).

(** A token carries text exactly when it is an identifier or an integer
    literal, and the text is then not empty. *)
Definition payload_ok (tok : Token) : Prop :=
  match type tok with
  | TokenType.ident | TokenType.int_lit =>
      exists b, value tok = Some b /\ b <> EmptyString
  | _ => value tok = None
  end.

(** Line numbers never go down along the sequence. *)
Fixpoint lines_sorted (ts : list Token) : Prop :=
  match ts with
  | [] => True
  | t1 :: ts' =>
      match ts' with
      | [] => True
      | t2 :: _ => line t1 <= line t2
      end /\ lines_sorted ts'
  end.

(** What holds of the state at the top of every round: the cursor is
    inside the text, [buf] is empty, the line counter is in the range of
    [int], and the tokens collected so far have the text each kind calls
    for. *)
Definition scan_inv (src : string) (s : state) : Prop :=
  (m_index s <= String.length src)%nat /\
  buf s = EmptyString /\
  - 2 ^ 31 <= line_count s < 2 ^ 31 /\
  Forall payload_ok (tokens s).

(** What holds of the lines as long as the line counter has not gone
    round: the counter is at least 1, and the tokens collected so far are
    in line order, on lines from 1 up to the current one. *)
Definition lines_inv (s : state) : Prop :=
  1 <= line_count s /\
  lines_sorted (tokens s) /\
  Forall (fun t => 1 <= line t <= line_count s) (tokens s).

(** [n] newlines in front of [rest]. *)
Fixpoint blank_lines (n : nat) (rest : string) : string :=
  match n with
  | O => rest
  | S k => String newline (blank_lines k rest)
  end.

(** ** Labels and further vocabulary *)

(** [to_string] (lines 30 to 73).  The [switch] has a case for every kind,
    so the [assert(false)] behind it is not reached. *)
Definition to_string (type : TokenType) : string :=
  match type with
  | TokenType.exit => "`exit`"
  | TokenType.int_lit => "int literal"
  | TokenType.semi => "`;`"
  | TokenType.open_paren => "`(`"
  | TokenType.close_paren => "`)`"
  | TokenType.ident => "identifier"
  | TokenType.let_ => "`let`"
  | TokenType.eq => "`=`"
  | TokenType.plus => "`+`"
  | TokenType.star => "`*`"
  | TokenType.minus => "`-`"
  | TokenType.fslash => "`/`"
  | TokenType.open_curly => "`{`"
  | TokenType.close_curly => "`}`"
  | TokenType.if_ => "`if`"
  | TokenType.elif => "`elif`"
  | TokenType.else_ => "`else`"
  | TokenType.colon => "`:`"
  | TokenType.for_ => "`for`"
  end.

(** The text of a label between its first and its last character. *)
Definition inside (label : string) : string :=
  String.substring 1 (String.length label - 2) label.

(** The number of newline characters among the first [n] of [src]. *)
Fixpoint count_newlines (src : string) (n : nat) : nat :=
  match n with
  | O => O
  | S k =>
      (count_newlines src k +
       if sat_at src (fun c => Ascii.eqb c newline) k then 1 else 0)%nat
  end.

(** The text a token carries: a word that is no keyword for an
    identifier, digits for an integer literal. *)
Definition text_ok (tok : Token) : Prop :=
  match type tok with
  | TokenType.ident =>
      exists b, value tok = Some b /\
        (exists c, String.get 0 b = Some c /\ isalpha c = true) /\
        (forall k d, String.get k b = Some d -> isalnum d = true) /\
        keyword_of b = None
  | TokenType.int_lit =>
      exists b, value tok = Some b /\
        (forall k d, String.get k b = Some d -> isdigit d = true)
  | _ => True
  end.

End Tokenization.
(** ** Arena allocator ([class ArenaAllocator]) *)

Module Arena.

(** [size_t] and [uintptr_t] are 64 bits wide. *)
Definition wrap (x : Z) : Z := x mod 2 ^ 64.

(** Addresses are numbers; the null pointer is address 0. *)
Definition nullptr : Z := 0.

Record ArenaAllocator : Set := mkArena {
  m_size : Z;
  m_buffer : Z;
  m_offset : Z
}.

(** The free store: the base addresses of the arrays obtained from
    [new[]] and not yet given back. *)
Abbreviation free_store := (gset Z).

(** The constructor.  [p] is the address [new std::byte[max_num_bytes]]
    returns. *)
Definition construct (max_num_bytes p : Z) (h : free_store)
  : ArenaAllocator * free_store :=
  (mkArena max_num_bytes p p, {[p]} ∪ h).

(** [std::exchange(obj, new_value)]: the old value, and [obj] afterwards. *)
Definition exchange {A} (obj new_value : A) : A * A := (obj, new_value).

(** [std::swap(a, b)]: [a] and [b] afterwards. *)
Definition swap {A} (a b : A) : A * A := (b, a).

(** The move constructor: the new object, and [other] afterwards. *)
Definition move_construct (other : ArenaAllocator)
  : ArenaAllocator * ArenaAllocator :=
  let '(size, other_size) := exchange (m_size other) 0 in
  let '(buffer, other_buffer) := exchange (m_buffer other) nullptr in
  let '(offset, other_offset) := exchange (m_offset other) nullptr in
  (mkArena size buffer offset, mkArena other_size other_buffer other_offset).

(** The move assignment [this = std::move(other)] between two objects:
    [this] and [other] afterwards.  (When both names denote one object the
    three swaps change nothing.) *)
Definition move_assign (this other : ArenaAllocator)
  : ArenaAllocator * ArenaAllocator :=
  let '(size, other_size) := swap (m_size this) (m_size other) in
  let '(buffer, other_buffer) := swap (m_buffer this) (m_buffer other) in
  let '(offset, other_offset) := swap (m_offset this) (m_offset other) in
  (mkArena size buffer offset, mkArena other_size other_buffer other_offset).

(** The destructor, [delete[] m_buffer]: nothing happens on a null
    pointer; a live array is given back; anything else (an array given
    back twice) is undefined, [None]. *)
Definition destroy (a : ArenaAllocator) (h : free_store) : option free_store :=
  if m_buffer a =? nullptr then Some h
  else if decide (m_buffer a ∈ h) then Some (h ∖ {[m_buffer a]})
  else None.

(** [sizeof(T)] and [alignof(T)] of a requested type. *)
Record type_info : Set := mkType {
  size_of : Z;
  align_of : Z
}.

(** [std::align(alignment, size, ptr, space)] of [<memory>], a routine of
    the C++ library, written after its libstdc++ definition; [ptr] and
    [space] are passed by reference, so the result is the returned pointer
    with the two of them afterwards. *)
Definition std_align (alignment size ptr space : Z) : Z * Z * Z :=
  if space <? size then (nullptr, ptr, space)
  else
    let aligned := Z.land (wrap (ptr - 1 + alignment)) (wrap (- alignment)) in
    let diff := wrap (aligned - ptr) in
    if diff >? space - size then (nullptr, ptr, space)
    else (aligned, aligned, space - diff).

(** [std::bad_alloc] is the only thing [alloc] throws. *)
Inductive outcome : Set :=
| returned (p : Z)
| bad_alloc.

(** [alloc<T>()]: the outcome and the arena afterwards. *)
Definition alloc (T : type_info) (a : ArenaAllocator) : outcome * ArenaAllocator :=
  let remaining_num_bytes := wrap (m_size a - wrap (m_offset a - m_buffer a)) in
  let pointer := m_offset a in
  let '(aligned_address, _, _) :=
    std_align (align_of T) (size_of T) pointer remaining_num_bytes in
  if aligned_address =? nullptr then (bad_alloc, a)
  else (returned aligned_address,
        mkArena (m_size a) (m_buffer a) (aligned_address + size_of T)).

Section Objects.

(** The values placed in the arena, and the memory, byte by byte: the
    cell at an address holds one byte of a value, told by the value and
    the index of the byte in it. *)
Context {V : Type}.

(** Constructing [v] in [n] bytes from address [p] on writes its bytes
    [0] to [n - 1] at [p] to [p + n - 1]. *)
Fixpoint store_object (v : V) (p : Z) (n : nat) (mem : gmap Z (V * Z))
  : gmap Z (V * Z) :=
  match n with
  | O => mem
  | S k => <[p + Z.of_nat k := (v, Z.of_nat k)]> (store_object v p k mem)
  end.

(** [emplace<T>(args...)]: [v] is the value [T { args... }], constructed
    in the [sizeof(T)] bytes at the address [alloc] returns.  (The
    constructor of [T] is taken to return; were it to throw, the arena
    would be as [alloc] leaves it.) *)
Definition emplace (T : type_info) (v : V) (a : ArenaAllocator)
  (mem : gmap Z (V * Z)) : outcome * ArenaAllocator * gmap Z (V * Z) :=
  let '(allocated_memory, a') := alloc T a in
  match allocated_memory with
  | returned p =>
      (returned p, a', store_object v p (Z.to_nat (size_of T)) mem)
  | bad_alloc => (bad_alloc, a', mem)
  end.

(** A call on the arena. *)
Inductive call : Type :=
| call_alloc (T : type_info)
| call_emplace (T : type_info) (v : V).

Definition type_of (c : call) : type_info :=
  match c with call_alloc T => T | call_emplace T _ => T end.

Definition do_call (c : call) (a : ArenaAllocator) (mem : gmap Z (V * Z))
  : outcome * ArenaAllocator * gmap Z (V * Z) :=
  match c with
  | call_alloc T => let '(r, a') := alloc T a in (r, a', mem)
  | call_emplace T v => emplace T v a mem
  end.

(** A sequence of calls, each [std::bad_alloc] being caught by the
    caller: the outcomes in order, and the arena and memory at the end. *)
Fixpoint do_calls (cs : list call) (a : ArenaAllocator) (mem : gmap Z (V * Z))
  : list outcome * ArenaAllocator * gmap Z (V * Z) :=
  match cs with
  | [] => ([], a, mem)
  | c :: cs' =>
      let '(r, a', mem') := do_call c a mem in
      let '(rs, a'', mem'') := do_calls cs' a' mem' in
      (r :: rs, a'', mem'')
  end.

(** The arena after a sequence of calls. *)
Definition arena_after (cs : list call) (a : ArenaAllocator) (mem : gmap Z (V * Z))
  : ArenaAllocator :=
  snd (fst (do_calls cs a mem)).

(** The address ranges [(first, one past the last)] handed out by a
    sequence of calls, in order. *)
Fixpoint granted (cs : list call) (rs : list outcome) : list (Z * Z) :=
  match cs, rs with
  | c :: cs', returned p :: rs' => (p, p + size_of (type_of c)) :: granted cs' rs'
  | _ :: cs', bad_alloc :: rs' => granted cs' rs'
  | _, _ => []
  end.

End Objects.
Arguments call V : clear implicits.

(** ** Vocabulary of the properties *)

(** The shape every arena has: it is the moved-from arena (all three
    members null or zero), or its buffer is an array of [m_size] bytes
    inside the address space and its cursor lies between the two ends. *)
Definition arena_ok (a : ArenaAllocator) : Prop :=
  0 <= m_size a /\
  0 <= m_buffer a <= m_offset a /\
  m_offset a <= m_buffer a + m_size a < 2 ^ 64 /\
  (m_buffer a = nullptr -> m_size a = 0).

(** A type of C++: a size of at least one byte, and a power of two as
    alignment. *)
Definition type_ok (T : type_info) : Prop :=
  1 <= size_of T < 2 ^ 64 /\
  exists k, 0 <= k < 64 /\ align_of T = 2 ^ k.

(** Some address at or after the cursor has the alignment of [T] and
    leaves [sizeof(T)] bytes before the end of the buffer. *)
Definition fits (T : type_info) (a : ArenaAllocator) : Prop :=
  exists addr,
    m_offset a <= addr /\ addr mod align_of T = 0 /\
    addr + size_of T <= m_buffer a + m_size a.

(** Ranges in increasing order, none reaching into the next. *)
Fixpoint ranges_apart (lo : Z) (rs : list (Z * Z)) : Prop :=
  match rs with
  | [] => True
  | (b, e) :: rs' => lo <= b /\ b < e /\ ranges_apart e rs'
  end.

(** The number of bytes in a list of ranges. *)
Fixpoint total_size (rs : list (Z * Z)) : Z :=
  match rs with
  | [] => 0
  | (b, e) :: rs' => (e - b) + total_size rs'
  end.

End Arena.

(** * Properties of the tokenizer *)

Module TokenizerProofs.
Import Tokenization.
Local Open Scope nat_scope.

(** ** Strings *)

Lemma get_none_iff (s : string) (n : nat) :
  String.get n s = None <-> String.length s <= n.
Proof.
  revert n. induction s as [|c s IH]; intros n; simpl.
  - split; [lia | reflexivity].
  - destruct n as [|n]; simpl.
    + split; [discriminate | lia].
    + rewrite IH. lia.
Qed.

Lemma get_some_lt (s : string) (n : nat) (c : ascii) :
  String.get n s = Some c -> n < String.length s.
Proof.
  intros H. destruct (Nat.lt_ge_cases n (String.length s)) as [|Hge]; [assumption|].
  apply get_none_iff in Hge. congruence.
Qed.

Lemma get_lt_some (s : string) (n : nat) :
  n < String.length s -> exists c, String.get n s = Some c.
Proof.
  intros H. destruct (String.get n s) as [c|] eqn:E; [eauto|].
  apply get_none_iff in E. lia.
Qed.

Lemma append_cons (d : ascii) (s t : string) :
  String d s +:+ t = String d (s +:+ t).
Proof. reflexivity. Qed.

Lemma append_empty_r (s : string) : s +:+ EmptyString = s.
Proof.
  induction s as [|d s IH]; [reflexivity | now rewrite append_cons, IH].
Qed.

Lemma append_assoc (a b c : string) : (a +:+ b) +:+ c = a +:+ (b +:+ c).
Proof.
  induction a as [|d a IH]; [reflexivity | now rewrite !append_cons, IH].
Qed.

Lemma substring_zero (s : string) (i : nat) : String.substring i 0 s = EmptyString.
Proof. revert i. induction s; intros [|i]; simpl; auto. Qed.

Lemma substring_snoc (s : string) (i k : nat) (c : ascii) :
  String.get (i + k) s = Some c ->
  String.substring i k s +:+ String c EmptyString = String.substring i (S k) s.
Proof.
  revert i k. induction s as [|d s IH]; intros i k H.
  - destruct (i + k); discriminate.
  - destruct i as [|i]; simpl.
    + destruct k as [|k]; simpl in *.
      * injection H as ->. now rewrite substring_zero.
      * rewrite append_cons. f_equal. now apply IH.
    + now apply IH.
Qed.

Lemma substring_cons (s : string) (i k : nat) (c : ascii) :
  String.get i s = Some c ->
  String.substring i (S k) s = String c (String.substring (S i) k s).
Proof.
  revert i. induction s as [|d s IH]; intros i H.
  - destruct i; discriminate.
  - destruct i as [|i]; simpl in *.
    + injection H as ->. reflexivity.
    + now apply IH.
Qed.

(** ** Loops *)

Lemma while_unfold (n : nat) (cond : M bool) (body : M unit) (s : state) :
  while_ (S n) cond body s =
  match cond s with
  | Ok (true, s1) =>
      match body s1 with
      | Ok (_, s2) => while_ n cond body s2
      | Fail e => Fail e
      end
  | Ok (false, s1) => Ok (tt, s1)
  | Fail e => Fail e
  end.
Proof.
  simpl. unfold bind. destruct (cond s) as [[[] s1]|e]; reflexivity.
Qed.

(** *** The loop rule

    Total correctness of [while_] with an invariant [I], a measure [mu]
    that each round lowers, and a condition [Q] on the failures the body
    may end with. *)
Section WhileRule.
Variables (I : state -> Prop) (Q : failure -> Prop) (mu : state -> nat).
Variables (cond : M bool) (body : M unit) (test : state -> bool).
Hypothesis cond_pure : forall s, I s -> cond s = Ok (test s, s).
Hypothesis body_round : forall s, I s -> test s = true ->
  (exists s', body s = Ok (tt, s') /\ I s' /\ mu s' < mu s) \/
  (exists e, body s = Fail e /\ Q e).

Lemma while_rule (n : nat) (s : state) :
  I s -> mu s < n ->
  (exists s', while_ n cond body s = Ok (tt, s') /\ I s' /\ test s' = false) \/
  (exists e, while_ n cond body s = Fail e /\ Q e).
Proof.
  revert s. induction n as [|n IH]; intros s HI Hmu; [lia|].
  rewrite while_unfold, (cond_pure s HI).
  destruct (test s) eqn:Ht.
  - destruct (body_round s HI Ht) as [(s' & -> & HI' & Hlt) | (e & -> & HQ)].
    + apply IH; [assumption | lia].
    + right. eauto.
  - left. exists s. auto.
Qed.
End WhileRule.

(** A loop that ended otherwise than by lack of fuel ends the same way on
    more fuel. *)
Lemma while_more_fuel (cond : M bool) (body : M unit) (n k : nat) (s : state) r :
  while_ n cond body s = r -> r <> Fail out_of_fuel ->
  while_ (n + k) cond body s = r.
Proof.
  revert s. induction n as [|n IH]; intros s H Hr.
  - subst r. now contradiction Hr.
  - change (S n + k) with (S (n + k)). rewrite while_unfold in *.
    destruct (cond s) as [[[] s1]|e]; try assumption.
    destruct (body s1) as [[[] s2]|e]; [|assumption].
    now apply IH.
Qed.

(** ** The arithmetic of [int] *)

Lemma int_wrap_range (x : Z) : (- 2 ^ 31 <= int_wrap x < 2 ^ 31)%Z.
Proof.
  unfold int_wrap.
  pose proof (Z.mod_pos_bound (x + 2 ^ 31) (2 ^ 32) ltac:(lia)). lia.
Qed.

Lemma int_wrap_small (x : Z) :
  (- 2 ^ 31 <= x < 2 ^ 31)%Z -> int_wrap x = x.
Proof.
  intros H. unfold int_wrap. rewrite Z.mod_small by lia. lia.
Qed.

Lemma int_wrap_le (x : Z) : (- 2 ^ 31 <= x)%Z -> (int_wrap x <= x)%Z.
Proof.
  intros H. unfold int_wrap.
  pose proof (Z.mod_le (x + 2 ^ 31) (2 ^ 32) ltac:(lia) ltac:(lia)). lia.
Qed.

Lemma int_wrap_succ (x : Z) : int_wrap (int_wrap x + 1) = int_wrap (x + 1).
Proof.
  unfold int_wrap.
  replace ((x + 2 ^ 31) mod 2 ^ 32 - 2 ^ 31 + 1 + 2 ^ 31)%Z
    with ((x + 2 ^ 31) mod 2 ^ 32 + 1)%Z by lia.
  rewrite Z.add_mod_idemp_l by lia.
  now replace (x + 2 ^ 31 + 1)%Z with (x + 1 + 2 ^ 31)%Z by lia.
Qed.

(** ** The primitives of the scanner *)

Section Scanner.
Variable src : string.
Let len := String.length src.

Lemma peek_get (offset : nat) (s : state) :
  peek src offset s = Ok (String.get (m_index s + offset) src, s).
Proof.
  unfold peek. destruct (Nat.leb_spec (String.length src) (m_index s + offset)) as [H|H].
  - apply get_none_iff in H. now rewrite H.
  - destruct (get_lt_some _ _ H) as [c Hc].
    unfold bind, at_. now rewrite Hc.
Qed.

Lemma consume_get (s : state) (c : ascii) :
  String.get (m_index s) src = Some c ->
  consume src s = Ok (c, mkState (S (m_index s)) (tokens s) (buf s) (line_count s)).
Proof. intros H. unfold consume, bind, at_. now rewrite H. Qed.

Lemma peek_is_get (offset : nat) (ch : ascii) (s : state) :
  peek_is src offset ch s =
  Ok (match String.get (m_index s + offset) src with
      | Some c => Ascii.eqb c ch
      | None => false
      end, s).
Proof.
  unfold peek_is, bind. rewrite peek_get.
  now destruct (String.get (m_index s + offset) src).
Qed.

Lemma peek_sat_get (p : ascii -> bool) (s : state) :
  peek_sat src p s =
  Ok (match String.get (m_index s) src with
      | Some c => p c
      | None => false
      end, s).
Proof.
  unfold peek_sat, bind. rewrite peek_get, Nat.add_0_r.
  now destruct (String.get (m_index s) src).
Qed.

(** *** The inner loops

    A loop whose condition [g] looks at the text from the cursor on and
    whose body consumes one character stops at the first index [j] at or
    after the cursor where [g] is false. *)
Section Inner.
Variables (cond : M bool) (g : nat -> bool).
Hypothesis cond_get : forall s, cond s = Ok (g (m_index s), s).
Hypothesis g_inside : forall i, g i = true -> i < len.

Lemma skip_loop (s : state) :
  m_index s <= len ->
  exists j,
    m_index s <= j <= len /\
    (forall k, m_index s <= k < j -> g k = true) /\
    g j = false /\
    while_ (fuel src) cond (consume src ;;; ret tt) s =
    Ok (tt, mkState j (tokens s) (buf s) (line_count s)).
Proof.
  intros Hle.
  destruct (while_rule
    (fun s' => m_index s <= m_index s' <= len /\
               (forall k, m_index s <= k < m_index s' -> g k = true) /\
               tokens s' = tokens s /\ buf s' = buf s /\
               line_count s' = line_count s)
    (fun _ => False) (fun s' => len - m_index s')
    cond (consume src ;;; ret tt) (fun s' => g (m_index s'))
    (fun s' _ => cond_get s')) with (n := fuel src) (s := s)
    as [(s' & Hrun & (Hidx & Hall & Ht & Hb & Hl) & Hstop) | (e & _ & [])].
  - intros s' (Hidx & Hall & Ht & Hb & Hl) Hg. left.
    pose proof (g_inside _ Hg) as Hlt.
    destruct (get_lt_some src (m_index s') Hlt) as [c Hc].
    eexists. split; [unfold bind; rewrite (consume_get _ _ Hc); reflexivity|].
    simpl. repeat split; try assumption; try lia.
    intros k Hk. destruct (Nat.eq_dec k (m_index s')) as [->|]; [assumption|].
    apply Hall. lia.
  - repeat split; auto; lia.
  - unfold fuel. fold len. lia.
  - exists (m_index s'). repeat split; try assumption; try lia.
    rewrite Hrun. destruct s'; simpl in *. now subst.
Qed.

Lemma gather_loop (s : state) :
  m_index s <= len ->
  exists j,
    m_index s <= j <= len /\
    (forall k, m_index s <= k < j -> g k = true) /\
    g j = false /\
    while_ (fuel src) cond (c <- consume src ;; buf_push_back c) s =
    Ok (tt, mkState j (tokens s)
              (buf s +:+ String.substring (m_index s) (j - m_index s) src)
              (line_count s)).
Proof.
  intros Hle.
  destruct (while_rule
    (fun s' => m_index s <= m_index s' <= len /\
               (forall k, m_index s <= k < m_index s' -> g k = true) /\
               tokens s' = tokens s /\
               buf s' = buf s +:+ String.substring (m_index s) (m_index s' - m_index s) src /\
               line_count s' = line_count s)
    (fun _ => False) (fun s' => len - m_index s')
    cond (c <- consume src ;; buf_push_back c) (fun s' => g (m_index s'))
    (fun s' _ => cond_get s')) with (n := fuel src) (s := s)
    as [(s' & Hrun & (Hidx & Hall & Ht & Hb & Hl) & Hstop) | (e & _ & [])].
  - intros s' (Hidx & Hall & Ht & Hb & Hl) Hg. left.
    pose proof (g_inside _ Hg) as Hlt.
    destruct (get_lt_some src (m_index s') Hlt) as [c Hc].
    eexists. split; [unfold bind; rewrite (consume_get _ _ Hc); reflexivity|].
    simpl. repeat split; try assumption; try lia.
    + intros k Hk. destruct (Nat.eq_dec k (m_index s')) as [->|]; [assumption|].
      apply Hall. lia.
    + rewrite Hb, append_assoc. f_equal.
      replace (S (m_index s') - m_index s) with (S (m_index s' - m_index s)) by lia.
      apply substring_snoc.
      replace (m_index s + (m_index s' - m_index s)) with (m_index s') by lia.
      assumption.
  - repeat split; auto; try lia.
    now rewrite Nat.sub_diag, substring_zero, append_empty_r.
  - unfold fuel. fold len. lia.
  - exists (m_index s'). repeat split; try assumption; try lia.
    rewrite Hrun. destruct s'; simpl in *. now subst.
Qed.
End Inner.

Lemma bind_ok {A B} (m : M A) (k : A -> M B) s a s' :
  m s = Ok (a, s') -> bind m k s = k a s'.
Proof. intros H. unfold bind. now rewrite H. Qed.

Lemma sat_at_inside p i : sat_at src p i = true -> i < len.
Proof.
  unfold sat_at. destruct (String.get i src) eqn:E; [|discriminate].
  intros _. eapply get_some_lt; eauto.
Qed.

Lemma word_chain (s : state) :
  (b <- get_buf ;;
    (if (b =? "exit")%string
     then emit TokenType.exit;;; buf_clear
     else
      if (b =? "let")%string
      then emit TokenType.let_;;; buf_clear
      else
       if (b =? "if")%string
       then emit TokenType.if_;;; buf_clear
       else
        if (b =? "elif")%string
        then emit TokenType.elif;;; buf_clear
        else
         if (b =? "else")%string
         then emit TokenType.else_;;; buf_clear
         else
          if (b =? "for")%string
          then emit TokenType.for_;;; buf_clear
          else emit_buf TokenType.ident;;; buf_clear)) s =
  Ok (tt, mkState (m_index s) (tokens s ++ [word_token (buf s) (line_count s)])
            EmptyString (line_count s)).
Proof.
  unfold word_token, keyword_of, keywords, List.find, fst, snd, option_map.
  rewrite (bind_ok _ _ s (buf s) s) by reflexivity.
  repeat (destruct (String.eqb (buf s) _); [reflexivity|]).
  reflexivity.
Qed.

Lemma not_closing_inside k : not_closing src k = true -> k < len.
Proof.
  unfold not_closing. destruct (String.get k src) eqn:E; [|discriminate].
  intros _. eapply get_some_lt; eauto.
Qed.

Lemma not_closing_true k : not_closing src k = true -> ~ closing_at src k.
Proof.
  unfold not_closing, closing_at, sat_at. intros H [H1 H2].
  rewrite H1, H2 in H. discriminate.
Qed.

Lemma not_closing_false k :
  not_closing src k = false -> closing_at src k \/ String.get k src = None.
Proof.
  unfold not_closing, closing_at, sat_at.
  destruct (String.get k src) as [d|]; [|now right].
  destruct (Ascii.eqb_spec d "*") as [->|]; [|discriminate].
  destruct (String.get (S k) src) as [e|]; [|discriminate].
  destruct (Ascii.eqb_spec e "/") as [->|]; [|discriminate].
  now left.
Qed.

Lemma block_cond_get (s : state) :
  (o <- peek src 0 ;;
   if has_value o then
     star <- peek_is src 0 "*" ;;
     closing <- (if star then peek_is src 1 "/" else ret false) ;;
     ret (negb closing)
   else ret false) s = Ok (not_closing src (m_index s), s).
Proof.
  unfold bind, not_closing, sat_at. rewrite peek_get, Nat.add_0_r.
  destruct (String.get (m_index s) src) as [d|] eqn:E; [|reflexivity].
  cbn [has_value]. rewrite peek_is_get, Nat.add_0_r, E.
  destruct (Ascii.eqb d "*"); [|reflexivity].
  now rewrite peek_is_get, Nat.add_1_r.
Qed.

Lemma consume_if_any (s : state) :
  m_index s <= len ->
  (o <- peek src 0 ;; if has_value o then consume src ;;; ret tt else ret tt) s =
  Ok (tt, mkState (Nat.min (S (m_index s)) len) (tokens s) (buf s) (line_count s)).
Proof.
  intros Hle. unfold bind. rewrite peek_get, Nat.add_0_r.
  destruct (String.get (m_index s) src) as [d|] eqn:E; cbn [has_value].
  - rewrite (consume_get _ _ E). pose proof (get_some_lt _ _ _ E). fold len in H.
    unfold ret. now rewrite Nat.min_l by lia.
  - apply get_none_iff in E. fold len in E.
    unfold ret. rewrite Nat.min_r by lia.
    replace len with (m_index s) by lia. now destruct s.
Qed.

Lemma run_text (i j : nat) (c : ascii) :
  String.get i src = Some c -> i < j ->
  String c EmptyString +:+ String.substring (S i) (j - S i) src =
  String.substring i (j - i) src.
Proof.
  intros Hc Hij. replace (j - i) with (S (j - S i)) by lia.
  now rewrite (substring_cons _ _ _ _ Hc).
Qed.

Lemma body_round (s : state) (c : ascii) :
  String.get (m_index s) src = Some c -> buf s = EmptyString ->
  round src s (tokenize_body src s).
Proof.
  intros Hc Hb. unfold tokenize_body.
  pose proof (get_some_lt _ _ _ Hc) as Hlt. fold len in Hlt.
  rewrite (bind_ok _ _ s c s).
  2:{ unfold bind. rewrite peek_get, Nat.add_0_r, Hc. reflexivity. }
  set (s1 := mkState (S (m_index s)) (tokens s) (String c EmptyString) (line_count s)).
  assert (Hpush : (c0 <- consume src;; buf_push_back c0) s = Ok (tt, s1)).
  { unfold bind. rewrite (consume_get _ _ Hc). unfold buf_push_back. simpl.
    rewrite Hb. reflexivity. }
  destruct (isalpha c) eqn:Halpha.
  - rewrite (bind_ok _ _ s tt s1 Hpush).
    destruct (gather_loop (peek_sat src isalnum) (sat_at src isalnum)
                (peek_sat_get isalnum) (sat_at_inside isalnum) s1)
      as (j & Hj & Hall & Hstop & Hrun); [simpl; lia|].
    unfold s1 in *. cbn [m_index tokens buf line_count] in *.
    rewrite (bind_ok _ _ _ _ _ Hrun), word_chain.
    cbn [m_index tokens buf line_count].
    rewrite (run_text _ j _ Hc) by lia.
    apply round_word with (c := c); auto; try lia.
    + intros k Hk. specialize (Hall k ltac:(lia)). unfold sat_at in Hall.
      destruct (String.get k src); [eauto | discriminate].
    + intros d Hd. unfold sat_at in Hstop. now rewrite Hd in Hstop.
  - destruct (isdigit c) eqn:Hdigit.
    + rewrite (bind_ok _ _ s tt s1 Hpush).
      destruct (gather_loop (peek_sat src isdigit) (sat_at src isdigit)
                  (peek_sat_get isdigit) (sat_at_inside isdigit) s1)
        as (j & Hj & Hall & Hstop & Hrun); [simpl; lia|].
      unfold s1 in *. cbn [m_index tokens buf line_count] in *.
      rewrite (bind_ok _ _ _ _ _ Hrun).
      unfold emit_buf, get_line_count, get_buf, tokens_push_back, buf_clear, bind.
      cbn [m_index tokens buf line_count].
      rewrite (run_text _ j _ Hc) by lia.
      apply round_number with (c := c); auto; try lia.
      * intros k Hk. specialize (Hall k ltac:(lia)). unfold sat_at in Hall.
        destruct (String.get k src); [eauto | discriminate].
      * intros d Hd. unfold sat_at in Hstop. now rewrite Hd in Hstop.
    + assert (Hnext : forall ch, exists b,
                (if Ascii.eqb c "/" then peek_is src 1 ch else ret false) s = Ok (b, s) /\
                (b = true <-> c = "/"%char /\ String.get (S (m_index s)) src = Some ch)).
      { intros ch. destruct (Ascii.eqb_spec c "/") as [->|Hne].
        - rewrite peek_is_get, Nat.add_1_r. eexists. split; [reflexivity|].
          destruct (String.get (S (m_index s)) src) as [d|].
          + destruct (Ascii.eqb_spec d ch) as [->|Hd]; [tauto|].
            split; [discriminate | intros [_ H]; congruence].
          + split; [discriminate | intros [_ H]; congruence].
        - exists false. split; [reflexivity|]. split; [discriminate | tauto]. }
      assert (Hskip2 : forall d, c = "/"%char -> String.get (S (m_index s)) src = Some d ->
                forall (k : M unit),
                (consume src ;;; consume src ;;; k) s =
                k (mkState (S (S (m_index s))) (tokens s) EmptyString (line_count s))).
      { intros d -> Hd k.
        rewrite (bind_ok _ _ _ _ _ (consume_get _ _ Hc)).
        erewrite bind_ok; [|apply consume_get; simpl; exact Hd].
        cbn [m_index tokens buf line_count]. now rewrite Hb. }
      destruct (Hnext "/"%char) as (lc & Hlc & Hlc_iff).
      rewrite (bind_ok _ _ _ _ _ Hlc).
      destruct lc.
      { destruct Hlc_iff as [[-> Hn] _]; [reflexivity|].
        rewrite (Hskip2 _ eq_refl Hn).
        pose proof (get_some_lt _ _ _ Hn) as Hlt2. fold len in Hlt2.
        destruct (skip_loop (peek_sat src (fun c0 => negb (Ascii.eqb c0 newline)))
                    (sat_at src (fun c0 => negb (Ascii.eqb c0 newline)))
                    (peek_sat_get _) (sat_at_inside _)
                    (mkState (S (S (m_index s))) (tokens s) EmptyString (line_count s)))
          as (j & Hj & Hall & Hstop & Hrun); [simpl; lia|].
        cbn [m_index tokens buf line_count] in *. rewrite Hrun.
        apply round_line_comment; auto.
        - intros k Hk E. specialize (Hall k Hk). unfold sat_at in Hall.
          rewrite E in Hall. now rewrite Ascii.eqb_refl in Hall.
        - unfold sat_at in Hstop. destruct (String.get j src) as [d|]; [|now left].
          right. destruct (Ascii.eqb_spec d newline) as [E|E]; [now rewrite E | discriminate]. }
      destruct (Hnext "*"%char) as (bc & Hbc & Hbc_iff).
      rewrite (bind_ok _ _ _ _ _ Hbc).
      destruct bc.
      { destruct Hbc_iff as [[-> Hn] _]; [reflexivity|].
        rewrite (Hskip2 _ eq_refl Hn).
        pose proof (get_some_lt _ _ _ Hn) as Hlt2. fold len in Hlt2.
        destruct (skip_loop _ (not_closing src) block_cond_get not_closing_inside
                    (mkState (S (S (m_index s))) (tokens s) EmptyString (line_count s)))
          as (j & Hj & Hall & Hstop & Hrun); [simpl; lia|].
        cbn [m_index tokens buf line_count] in *.
        rewrite (bind_ok _ _ _ _ _ Hrun).
        rewrite (bind_ok _ _ _ _ _
                   (consume_if_any (mkState j (tokens s) EmptyString (line_count s))
                      ltac:(simpl; lia))).
        rewrite consume_if_any by (cbn [m_index]; lia).
        cbn [m_index tokens buf line_count].
        replace (Nat.min (S (Nat.min (S j) len)) len) with (Nat.min (j + 2) len) by lia.
        apply round_block_comment; auto.
        - intros k Hk. apply not_closing_true, Hall, Hk.
        - destruct (not_closing_false _ Hstop) as [H|H]; [now left|].
          right. apply get_none_iff in H. unfold len in *. lia. }
      assert (Hnot : ~ opener_at src (m_index s)).
      { intros [H1 [H2|H2]].
        - destruct Hlc_iff as [_ H]. discriminate H. split; congruence.
        - destruct Hbc_iff as [_ H]. discriminate H. split; congruence. }
      clear Hnext Hskip2 Hlc Hlc_iff Hbc Hbc_iff Hpush.
      assert (Hpunct : forall ty, In (c, ty) punctuation ->
                round src s ((consume src ;;; emit ty) s)).
      { intros ty Hin. rewrite (bind_ok _ _ _ _ _ (consume_get _ _ Hc)).
        unfold emit, get_line_count, tokens_push_back, bind.
        cbn [m_index tokens buf line_count]. rewrite Hb.
        now apply round_punctuation with (c := c). }
      repeat match goal with
      | |- round _ _ ((if Ascii.eqb c ?x then consume src ;;; emit _ else _) _) =>
          let E := fresh "E" in
          destruct (Ascii.eqb c x) eqn:E;
          [apply Ascii.eqb_eq in E; apply Hpunct; rewrite E;
           unfold punctuation; simpl; tauto|]
      end.
      destruct (Ascii.eqb c newline) eqn:En.
      { apply Ascii.eqb_eq in En. subst c.
        rewrite (bind_ok _ _ _ _ _ (consume_get _ _ Hc)).
        unfold line_count_incr. cbn [m_index tokens buf line_count]. rewrite Hb.
        now apply round_newline. }
      destruct (isspace c) eqn:Hspace.
      { rewrite (bind_ok _ _ _ _ _ (consume_get _ _ Hc)).
        unfold ret. rewrite Hb.
        apply round_space with (c := c); auto.
        intros ->. now rewrite Ascii.eqb_refl in En. }
      apply round_unrecognized with (c := c); [assumption|].
      unfold recognized, punctuation. cbn [existsb fst].
      repeat match goal with H : _ = false |- _ => rewrite H; clear H end.
      reflexivity.
Qed.

(** *** What a round keeps *)

Lemma lines_sorted_snoc (ts : list Token) (tok : Token) :
  lines_sorted ts ->
  Forall (fun t => (line t <= line tok)%Z) ts ->
  lines_sorted (ts ++ [tok]).
Proof.
  induction ts as [|t1 ts IH]; intros Hs Hall; simpl; [auto|].
  destruct Hs as [Hhd Htl]. inversion Hall as [|? ? H1 H2]; subst.
  split; [|now apply IH].
  destruct ts as [|t2 ts]; simpl; [assumption | exact Hhd].
Qed.

Lemma substring_not_empty (i k : nat) (c : ascii) :
  String.get i src = Some c -> 0 < k -> String.substring i k src <> EmptyString.
Proof.
  intros Hc Hk. destruct k as [|k]; [lia|].
  now rewrite (substring_cons _ _ _ _ Hc).
Qed.

Lemma word_token_line (b : string) (l : Z) : line (word_token b l) = l.
Proof. unfold word_token. now destruct (keyword_of b). Qed.

Lemma word_token_payload (b : string) (l : Z) :
  b <> EmptyString -> payload_ok (word_token b l).
Proof.
  intros Hb. unfold word_token, keyword_of, keywords, List.find, fst, snd, option_map.
  repeat (destruct (String.eqb b _); [reflexivity|]).
  unfold payload_ok. simpl. eauto.
Qed.

Lemma punctuation_payload (c : ascii) (ty : TokenType) (l : Z) :
  In (c, ty) punctuation -> payload_ok (mkToken ty l None).
Proof.
  unfold punctuation. simpl.
  intros H. repeat (destruct H as [H|H]; [injection H as _ <-; reflexivity|]).
  destruct H.
Qed.

Lemma push_keeps (s : state) (j : nat) (tok : Token) :
  scan_inv src s -> m_index s < j <= len ->
  payload_ok tok ->
  scan_inv src (mkState j (tokens s ++ [tok]) EmptyString (line_count s)).
Proof.
  intros (Hi & Hb & Hl & Hpay) Hj Hp.
  unfold scan_inv. cbn [m_index tokens buf line_count].
  split; [lia|]. split; [reflexivity|]. split; [assumption|].
  apply Forall_app. split; [assumption|]. now constructor.
Qed.

Lemma move_keeps (s : state) (j : nat) (l : Z) :
  scan_inv src s -> m_index s < j <= len ->
  (- 2 ^ 31 <= l < 2 ^ 31)%Z ->
  scan_inv src (mkState j (tokens s) EmptyString l).
Proof.
  intros (Hi & Hb & Hl & Hpay) Hj Hline.
  unfold scan_inv. cbn [m_index tokens buf line_count].
  split; [lia|]. split; [reflexivity|]. split; assumption.
Qed.

(** A round started under the invariant either ends under it, with the
    cursor further on and the old tokens in front, or stops the whole
    run. *)
Lemma round_keeps (s : state) r :
  scan_inv src s -> round src s r ->
  (exists s', r = Ok (tt, s') /\ scan_inv src s' /\ m_index s < m_index s' /\
              exists more, tokens s' = tokens s ++ more) \/
  r = Fail exit_failure.
Proof.
  intros Hinv Hr. pose proof Hinv as (_ & _ & Hrange & _).
  destruct Hr as [c j Hc Ha Hj Hall Hstop | c j Hc Ha Hd Hj Hall Hstop
                 | j Hc Hn Hj Hall Hstop | j Hc Hn Hj Hall Hstop
                 | c ty Hc Hin Hno | Hc | c Hc Hsp Hne | c Hc Hun];
    try pose proof (get_some_lt _ _ _ Hc) as Hlt; try fold len in Hlt;
    try (right; reflexivity); left; eexists; (split; [reflexivity|]);
    cbn [m_index tokens buf line_count].
  - split; [|split; [lia | eauto]].
    apply push_keeps; [assumption | lia |].
    apply word_token_payload, (substring_not_empty _ _ _ Hc). lia.
  - split; [|split; [lia | eauto]].
    apply push_keeps; [assumption | lia |].
    unfold payload_ok. simpl. eexists. split; [reflexivity|].
    apply (substring_not_empty _ _ _ Hc). lia.
  - split; [|split; [lia | exists []; now rewrite app_nil_r]].
    apply move_keeps; [assumption | lia | lia].
  - split; [|split; [fold len; lia | exists []; now rewrite app_nil_r]].
    apply move_keeps; [assumption | fold len; lia | lia].
  - split; [|split; [lia | eauto]].
    apply push_keeps; [assumption | lia |].
    eapply punctuation_payload; eauto.
  - split; [|split; [lia | exists []; now rewrite app_nil_r]].
    apply move_keeps; [assumption | lia | apply int_wrap_range].
  - split; [|split; [lia | exists []; now rewrite app_nil_r]].
    apply move_keeps; [assumption | lia | lia].
Qed.

Lemma entry_inv : scan_inv src entry.
Proof.
  unfold scan_inv, entry. simpl. repeat split; auto; try lia.
Qed.

Lemma loop_cond_get (s : state) :
  (o <- peek src 0 ;; ret (has_value o)) s =
  Ok (has_value (String.get (m_index s) src), s).
Proof. unfold bind. now rewrite peek_get, Nat.add_0_r. Qed.

Lemma has_value_get (i : nat) :
  has_value (String.get i src) = true <-> i < len.
Proof.
  destruct (String.get i src) as [c|] eqn:E; simpl.
  - apply get_some_lt in E. tauto.
  - apply get_none_iff in E. fold len in E. split; [discriminate | lia].
Qed.

Lemma body_keeps (s : state) :
  scan_inv src s -> m_index s < len ->
  (exists s', tokenize_body src s = Ok (tt, s') /\ scan_inv src s' /\
              m_index s < m_index s' /\
              exists more, tokens s' = tokens s ++ more) \/
  tokenize_body src s = Fail exit_failure.
Proof.
  intros Hinv Hlt. destruct (get_lt_some _ _ Hlt) as [c Hc].
  apply round_keeps; [assumption|].
  apply (body_round s c Hc). apply Hinv.
Qed.

(** The outer loop, started under the invariant, ends with the cursor at
    the end of the text, or by [exit(EXIT_FAILURE)]. *)
Lemma loop_total (s : state) :
  scan_inv src s ->
  (exists s', tokenize_loop src s = Ok (tt, s') /\ scan_inv src s' /\
              m_index s' = len /\ exists more, tokens s' = tokens s ++ more) \/
  tokenize_loop src s = Fail exit_failure.
Proof.
  intros Hinv. unfold tokenize_loop.
  destruct (while_rule
    (fun s' => scan_inv src s' /\ exists more, tokens s' = tokens s ++ more)
    (fun e => e = exit_failure) (fun s' => len - m_index s')
    _ (tokenize_body src) (fun s' => has_value (String.get (m_index s') src))
    (fun s' _ => loop_cond_get s')) with (n := fuel src) (s := s)
    as [(s' & Hrun & (Hinv' & Hmore) & Hstop) | (e & Hrun & ->)].
  - intros s' (Hinv' & more & Hmore) Ht. apply has_value_get in Ht.
    destruct (body_keeps s' Hinv' Ht) as [(s2 & Hb & Hinv2 & Hlt & more2 & Hm2) | Hb].
    + left. exists s2. split; [assumption|]. split; [split; [assumption|]|].
      * exists (more ++ more2). now rewrite Hm2, Hmore, app_assoc.
      * destruct Hinv2 as [H _]. fold len in H. lia.
    + right. eauto.
  - split; [assumption | exists []; now rewrite app_nil_r].
  - unfold fuel. fold len. lia.
  - left. exists s'. split; [assumption|]. split; [assumption|].
    split; [|assumption].
    destruct Hinv' as [H _]. fold len in H.
    destruct (Nat.eq_dec (m_index s') len) as [|Hne]; [assumption|].
    assert (Hlt : m_index s' < len) by lia.
    apply has_value_get in Hlt. congruence.
  - now right.
Qed.

Lemma reaches_inv (s : state) : reaches src s -> scan_inv src s.
Proof.
  induction 1 as [|s s' _ IH Hlt Hbody]; [apply entry_inv|].
  destruct (body_keeps s IH Hlt) as [(s2 & Hb & Hinv & _) | Hb]; congruence.
Qed.

(** The loop run from a state it goes through ends as the whole loop
    does. *)
Lemma loop_from_reached (s : state) :
  reaches src s -> tokenize_loop src entry = tokenize_loop src s.
Proof.
  induction 1 as [|s s' Hs IH Hlt Hbody]; [reflexivity|].
  rewrite IH. unfold tokenize_loop, fuel. fold len.
  rewrite while_unfold, loop_cond_get.
  apply has_value_get in Hlt. rewrite Hlt, Hbody.
  replace (S len) with (len + 1) by lia.
  symmetry. apply while_more_fuel; [reflexivity|].
  intros Hfuel.
  destruct (loop_total s (reaches_inv s Hs)) as [(s2 & Hrun & _) | Hrun];
    unfold tokenize_loop, fuel in Hrun; fold len in Hrun;
    rewrite while_unfold, loop_cond_get, Hlt, Hbody in Hrun; congruence.
Qed.

Lemma run_tokenize_loop :
  run_tokenize src =
  match tokenize_loop src entry with
  | Ok (_, s') => Ok (tokens s')
  | Fail e => Fail e
  end.
Proof.
  unfold run_tokenize, tokenize, bind.
  now destruct (tokenize_loop src entry) as [[[] s']|e].
Qed.

(** The fuel of the model is enough: a run never ends for lack of it. *)
Lemma fuel_is_enough : run_tokenize src <> Fail out_of_fuel.
Proof.
  rewrite run_tokenize_loop.
  destruct (loop_total entry entry_inv) as [(s' & -> & _) | ->]; discriminate.
Qed.

(** The cursor never passes the end of the text. *)
Lemma index_le_length (s : state) : reaches src s -> m_index s <= String.length src.
Proof. intros H. apply (reaches_inv s H). Qed.

(** The line counter stays in the range of [int]. *)
Lemma line_count_in_int_range (s : state) :
  reaches src s -> (- 2 ^ 31 <= line_count s < 2 ^ 31)%Z.
Proof.
  intros H. apply (reaches_inv s H).
Qed.

(** *** Characters *)

Lemma unrecognized_facts (c : ascii) :
  recognized c = false ->
  isalpha c = false /\ isdigit c = false /\
  (forall ty, ~ In (c, ty) punctuation) /\
  c <> newline /\ isspace c = false.
Proof.
  unfold recognized. intros H.
  do 4 (apply orb_false_iff in H; destruct H as [H ?]).
  split; [assumption|]. split; [assumption|]. split; [|split; [|assumption]].
  - intros ty Hin.
    assert (E : existsb (fun p => Ascii.eqb c (fst p)) punctuation = true).
    { apply existsb_exists. exists (c, ty). split; [assumption | apply Ascii.eqb_refl]. }
    congruence.
  - intros ->. now rewrite Ascii.eqb_refl in *.
Qed.

Lemma punctuation_recognized (c : ascii) (ty : TokenType) :
  In (c, ty) punctuation -> recognized c = true /\ isalpha c = false.
Proof.
  unfold punctuation. simpl.
  intros H. repeat (destruct H as [H|H]; [injection H as <- _; now vm_compute|]).
  destruct H.
Qed.

Lemma space_not_alpha (c : ascii) : isspace c = true -> isalpha c = false.
Proof.
  unfold isspace, isalpha, isupper, islower.
  destruct (N.eqb_spec (code c) 32); repeat
    match goal with |- context [N.leb ?a ?b] => destruct (N.leb_spec a b) end;
    simpl; try reflexivity; try discriminate; lia.
Qed.

(** *** Claims *)

(** The character under the cursor, two names for it. *)
Ltac same_char Hc :=
  repeat match goal with
  | H : String.get ?i src = Some ?c |- _ =>
      lazymatch type of Hc with
      | String.get i src = Some ?d =>
          lazymatch c with
          | d => fail
          | _ => assert (c = d) by congruence; subst c; clear H
          end
      end
  end.

Ltac absurd_class :=
  match goal with
  | H : isalpha _ = _ |- _ => now vm_compute in H
  | H : isdigit _ = _ |- _ => now vm_compute in H
  | H : isspace _ = _ |- _ => now vm_compute in H
  | H : recognized _ = _ |- _ => now vm_compute in H
  end.

(** C7: a block comment that is never closed runs to the end of the
    text without any error.  When the scanner is at a [/*] (at the top
    of a round) and no [*/] starts at or after the second index past it,
    the round moves the cursor to the end of the text, and tokenization
    returns the tokens collected before the opener. *)
Theorem unterminated_block_comment (s : state) :
  reaches src s ->
  String.get (m_index s) src = Some "/"%char ->
  String.get (S (m_index s)) src = Some "*"%char ->
  (forall k, S (S (m_index s)) <= k -> ~ closing_at src k) ->
  tokenize_body src s =
    Ok (tt, mkState (String.length src) (tokens s) EmptyString (line_count s)) /\
  tokenize_loop src entry =
    Ok (tt, mkState (String.length src) (tokens s) EmptyString (line_count s)) /\
  run_tokenize src = Ok (tokens s).
Proof.
  intros Hs Hc Hn Hno.
  pose proof (reaches_inv s Hs) as Hinv.
  pose proof (get_some_lt _ _ _ Hn) as Hlt.
  assert (Hbody : tokenize_body src s =
            Ok (tt, mkState (String.length src) (tokens s) EmptyString (line_count s))).
  { pose proof (body_round s _ Hc (proj1 (proj2 Hinv))) as Hr.
    remember (tokenize_body src s) as r eqn:Er. clear Er.
    destruct Hr as [c j Hc' Ha Hj Hall Hstop | c j Hc' Ha Hd Hj Hall Hstop
                   | j Hc' Hn' Hj Hall Hstop | j Hc' Hn' Hj Hall Hstop
                   | c ty Hc' Hin Hnop | Hc' | c Hc' Hsp Hne | c Hc' Hun];
      try (same_char Hc; absurd_class); try congruence.
    - destruct Hstop as [Hcl | ->].
      + now apply Hno in Hcl.
      + now rewrite Nat.min_r by lia.
    - exfalso. apply Hnop. split; auto.
    - unfold newline in Hc'. congruence. }
  split; [exact Hbody|].
  assert (Hloop : tokenize_loop src s =
            Ok (tt, mkState (String.length src) (tokens s) EmptyString (line_count s))).
  { unfold tokenize_loop, fuel. rewrite while_unfold, loop_cond_get, Hc, Hbody.
    cbn [has_value]. destruct (String.length src) as [|n] eqn:En; [lia|].
    rewrite while_unfold, loop_cond_get. cbn [m_index].
    rewrite <- En. now rewrite (proj2 (get_none_iff src _) (Nat.le_refl _)). }
  rewrite run_tokenize_loop, (loop_from_reached s Hs), Hloop. auto.
Qed.

(** A round started on an unrecognized character stops the run. *)
Lemma fatal_round (s : state) (c : ascii) :
  scan_inv src s ->
  String.get (m_index s) src = Some c -> recognized c = false ->
  tokenize_body src s = Fail exit_failure.
Proof.
  intros Hinv Hc Hun.
  destruct (unrecognized_facts c Hun) as (Ha & Hd & Hp & Hnl & Hsp).
  pose proof (body_round s _ Hc (proj1 (proj2 Hinv))) as Hr.
  remember (tokenize_body src s) as r eqn:Er. clear Er.
  destruct Hr as [c' j Hc' Ha' Hj Hall Hstop | c' j Hc' Ha' Hd' Hj Hall Hstop
                 | j Hc' Hn' Hj Hall Hstop | j Hc' Hn' Hj Hall Hstop
                 | c' ty Hc' Hin Hnop | Hc' | c' Hc' Hsp' Hne | c' Hc' Hun'];
    try reflexivity; exfalso;
    try (assert (c' = c) by congruence; subst c');
    try congruence.
  - assert (c = "/"%char) by congruence. subst c. now vm_compute in Hun.
  - assert (c = "/"%char) by congruence. subst c. now vm_compute in Hun.
  - now apply (Hp ty).
Qed.

(** A round started before an unrecognized character that no comment
    opener precedes does not take the cursor past it. *)
Lemma bounded_round (s : state) (p : nat) (c : ascii) :
  scan_inv src s -> m_index s < p ->
  String.get p src = Some c -> recognized c = false ->
  (forall k, k < p -> ~ opener_at src k) ->
  (exists s', tokenize_body src s = Ok (tt, s') /\ m_index s < m_index s' <= p) \/
  tokenize_body src s = Fail exit_failure.
Proof.
  intros Hinv Hlt Hp Hun Hno.
  destruct (unrecognized_facts c Hun) as (Ha & Hd & _).
  assert (Hlen : m_index s < len).
  { apply get_some_lt in Hp. fold len in Hp. lia. }
  destruct (get_lt_some _ _ Hlen) as [c0 Hc].
  pose proof (body_round s _ Hc (proj1 (proj2 Hinv))) as Hr.
  remember (tokenize_body src s) as r eqn:Er. clear Er.
  destruct Hr as [c' j Hc' Ha' Hj Hall Hstop | c' j Hc' Ha' Hd' Hj Hall Hstop
                 | j Hc' Hn' Hj Hall Hstop | j Hc' Hn' Hj Hall Hstop
                 | c' ty Hc' Hin Hnop | Hc' | c' Hc' Hsp' Hne | c' Hc' Hun'];
    try (right; reflexivity); left; eexists; (split; [reflexivity|]);
    cbn [m_index].
  - destruct (Nat.le_gt_cases j p) as [|Hgt]; [lia|]. exfalso.
    destruct (Hall p ltac:(lia)) as (d & Hd' & Hal).
    assert (d = c) by congruence. subst d.
    unfold isalnum in Hal. rewrite Ha, Hd in Hal. discriminate.
  - destruct (Nat.le_gt_cases j p) as [|Hgt]; [lia|]. exfalso.
    destruct (Hall p ltac:(lia)) as (d & Hd'' & Hal).
    assert (d = c) by congruence. subst d. congruence.
  - exfalso. apply (Hno (m_index s) Hlt). split; auto.
  - exfalso. apply (Hno (m_index s) Hlt). split; auto.
  - lia.
  - lia.
  - lia.
Qed.

(** C5 (amended): an unrecognized character that the scanner meets at
    the top of a round, as is every one that no comment opener precedes,
    ends tokenization by [exit(EXIT_FAILURE)]; no token sequence is
    returned. *)
Theorem unrecognized_character_is_fatal (p : nat) (c : ascii) :
  String.get p src = Some c -> recognized c = false ->
  ((exists s, reaches src s /\ m_index s = p) \/
   (forall k, k < p -> ~ opener_at src k)) ->
  run_tokenize src = Fail exit_failure.
Proof.
  intros Hp Hun Hwhere.
  assert (Hmet : forall s, reaches src s -> m_index s = p ->
            run_tokenize src = Fail exit_failure).
  { intros s Hs Hi. subst p.
    rewrite run_tokenize_loop, (loop_from_reached s Hs).
    unfold tokenize_loop, fuel.
    rewrite while_unfold, loop_cond_get, Hp. cbn [has_value].
    now rewrite (fatal_round s c (reaches_inv s Hs) Hp Hun). }
  destruct Hwhere as [(s & Hs & Hi) | Hno]; [eauto|].
  rewrite run_tokenize_loop.
  destruct (while_rule
    (fun s' => reaches src s' /\ m_index s' <= p)
    (fun e => e = exit_failure) (fun s' => len - m_index s')
    _ (tokenize_body src) (fun s' => has_value (String.get (m_index s') src))
    (fun s' _ => loop_cond_get s')) with (n := fuel src) (s := entry)
    as [(s' & Hrun & (Hs' & Hle) & Hstop) | (e & Hrun & ->)].
  - intros s' (Hs' & Hle) Ht. apply has_value_get in Ht.
    pose proof (reaches_inv s' Hs') as Hinv.
    destruct (Nat.eq_dec (m_index s') p) as [Heq|Hne].
    + right. exists exit_failure. split; [|reflexivity].
      subst p. apply (fatal_round s' c Hinv Hp Hun).
    + destruct (bounded_round s' p c Hinv ltac:(lia) Hp Hun Hno)
        as [(s2 & Hb & Hlt) | Hb].
      * left. exists s2. split; [assumption|]. split; [|lia].
        split; [|lia]. eapply reaches_round; eauto.
      * right. eauto.
  - split; [apply reaches_entry | simpl; lia].
  - unfold fuel. fold len. simpl. lia.
  - exfalso. apply get_some_lt in Hp.
    assert (Hlt : m_index s' < len) by (unfold len; lia).
    apply has_value_get in Hlt. congruence.
  - unfold tokenize_loop. now rewrite Hrun.
Qed.

Lemma keyword_of_keywords (b : string) :
  match keyword_of b with
  | Some k => In (b, k) keywords
  | None => forall k, ~ In (b, k) keywords
  end.
Proof.
  unfold keyword_of, keywords, List.find, fst, snd, option_map.
  repeat match goal with
  | |- context [String.eqb b ?x] =>
      destruct (String.eqb_spec b x) as [->|?]; [simpl; tauto|]
  end.
  simpl. intros k H.
  repeat (destruct H as [H|H]; [congruence|]). destruct H.
Qed.

Lemma substring_is (i : nat) (run : string) :
  (forall k, k < String.length run -> String.get (i + k) src = String.get k run) ->
  String.substring i (String.length run) src = run.
Proof.
  intros H. apply String.get_correct. intros k.
  destruct (Nat.lt_ge_cases k (String.length run)) as [Hk|Hk].
  - rewrite String.substring_correct1 by assumption.
    rewrite Nat.add_comm. now apply H.
  - rewrite String.substring_correct2 by assumption.
    symmetry. now apply get_none_iff.
Qed.

(** C6: a word is taken whole before it is classified.  When the
    scanner is at the first character of [run], a letter followed by
    letters and digits up to a character that is neither (or the end of
    the text), one round consumes exactly [run] and adds one token on
    the current line: the keyword token of the kind [run] spells if it
    is one of the reserved spellings, the identifier token carrying
    [run] otherwise; the token is part of the sequence tokenization
    returns.  The text [iffy] gives the single token [ident("iffy")]. *)
Theorem word_is_taken_whole (s : state) (run : string) :
  reaches src s ->
  (forall k, k < String.length run ->
     String.get (m_index s + k) src = String.get k run) ->
  (exists c, String.get 0 run = Some c /\ isalpha c = true) ->
  (forall k d, String.get k run = Some d -> isalnum d = true) ->
  (forall d, String.get (m_index s + String.length run) src = Some d ->
     isalnum d = false) ->
  (exists tok,
     tokenize_body src s =
       Ok (tt, mkState (m_index s + String.length run) (tokens s ++ [tok])
                 EmptyString (line_count s)) /\
     ((exists k, In (run, k) keywords /\ tok = mkToken k (line_count s) None) \/
      ((forall k, ~ In (run, k) keywords) /\
       tok = mkToken TokenType.ident (line_count s) (Some run))) /\
     (forall ts, run_tokenize src = Ok ts ->
        exists more, ts = tokens s ++ [tok] ++ more)) /\
  run_tokenize "iffy" = Ok [mkToken TokenType.ident 1 (Some "iffy")].
Proof.
  intros Hs Hrun (c & Hc0 & Ha) Haln Hmax.
  split; [|vm_compute; reflexivity].
  pose proof (reaches_inv s Hs) as Hinv.
  assert (Hn : 0 < String.length run) by (eapply get_some_lt; eauto).
  assert (Hc : String.get (m_index s) src = Some c).
  { rewrite <- Hc0, <- (Hrun 0 Hn). f_equal. lia. }
  exists (word_token run (line_count s)).
  assert (Hbody : tokenize_body src s =
            Ok (tt, mkState (m_index s + String.length run)
                      (tokens s ++ [word_token run (line_count s)])
                      EmptyString (line_count s))).
  { pose proof (body_round s _ Hc (proj1 (proj2 Hinv))) as Hr.
    remember (tokenize_body src s) as r eqn:Er. clear Er.
    destruct Hr as [c' j Hc' Ha' Hj Hall Hstop | c' j Hc' Ha' Hd' Hj Hall Hstop
                   | j Hc' Hn' Hj Hall Hstop | j Hc' Hn' Hj Hall Hstop
                   | c' ty Hc' Hin Hnop | Hc' | c' Hc' Hsp' Hne | c' Hc' Hun'].
    - assert (Ej : j = m_index s + String.length run).
      { destruct (Nat.lt_trichotomy j (m_index s + String.length run))
          as [Hlt | [Heq | Hgt]]; [exfalso | assumption | exfalso].
        - specialize (Hrun (j - m_index s) ltac:(lia)).
          replace (m_index s + (j - m_index s)) with j in Hrun by lia.
          destruct (get_lt_some run (j - m_index s) ltac:(lia)) as [d Hd].
          rewrite Hd in Hrun. pose proof (Hstop d Hrun) as H1.
          pose proof (Haln _ d Hd) as H2. congruence.
        - destruct (Hall (m_index s + String.length run) ltac:(lia)) as (d & Hd & Hal).
          pose proof (Hmax d Hd). congruence. }
      subst j.
      replace (m_index s + String.length run - m_index s) with (String.length run) by lia.
      now rewrite (substring_is _ _ Hrun).
    - assert (c = c') by congruence. subst c'. congruence.
    - assert (c = "/"%char) by congruence. subst c. now vm_compute in Ha.
    - assert (c = "/"%char) by congruence. subst c. now vm_compute in Ha.
    - assert (c = c') by congruence. subst c'.
      destruct (punctuation_recognized _ _ Hin). congruence.
    - assert (c = newline) by congruence. subst c. now vm_compute in Ha.
    - assert (c = c') by congruence. subst c'.
      pose proof (space_not_alpha _ Hsp'). congruence.
    - assert (c = c') by congruence. subst c'.
      destruct (unrecognized_facts _ Hun') as [H _]. congruence. }
  split; [exact Hbody|]. split.
  - unfold word_token. pose proof (keyword_of_keywords run) as Hk.
    destruct (keyword_of run) as [k|]; [left | right]; eauto.
  - intros ts Hts.
    assert (Hs' : reaches src (mkState (m_index s + String.length run)
                                 (tokens s ++ [word_token run (line_count s)])
                                 EmptyString (line_count s))).
    { eapply reaches_round; [exact Hs | eapply get_some_lt; eauto | exact Hbody]. }
    rewrite run_tokenize_loop, (loop_from_reached _ Hs') in Hts.
    destruct (loop_total _ (reaches_inv _ Hs')) as [(s2 & Hl & _ & _ & more & Hm) | Hl];
      rewrite Hl in Hts; [|discriminate].
    injection Hts as <-. exists more. cbn [tokens] in Hm.
    now rewrite Hm, <- app_assoc.
Qed.

End Scanner.

(** C4: the precedence of a token kind depends on the kind alone: 0 for
    [plus] and [minus], 1 for [star] and [fslash], none for every other
    kind. *)
Theorem bin_prec_by_kind (ty : TokenType) :
  (bin_prec ty = Some 0%Z <-> ty = TokenType.plus \/ ty = TokenType.minus) /\
  (bin_prec ty = Some 1%Z <-> ty = TokenType.star \/ ty = TokenType.fslash) /\
  (bin_prec ty = None <->
     ty <> TokenType.plus /\ ty <> TokenType.minus /\
     ty <> TokenType.star /\ ty <> TokenType.fslash).
Proof.
  destruct ty; simpl; intuition congruence.
Qed.

(** C1 (as the code behaves): on the text [/* a], newline, [b */ exit]
    the only token is the keyword [exit], and it is given line 1, not 2:
    the newline inside the block comment is consumed without being
    counted. *)
Theorem newline_in_block_comment_not_counted :
  run_tokenize ("/* a" +:+ String newline "b */ exit") =
  Ok [mkToken TokenType.exit 1 None].
Proof. vm_compute. reflexivity. Qed.

(** C5 (as stated) fails: a character of no category inside a comment is
    discarded with the comment, and tokenization succeeds. *)
Lemma unrecognized_in_comment_is_skipped :
  ~ (forall (src : string) (p : nat) (c : ascii),
       String.get p src = Some c -> recognized c = false ->
       run_tokenize src = Fail exit_failure).
Proof.
  intros H. specialize (H "// $" 3 "$"%char eq_refl eq_refl).
  vm_compute in H. discriminate H.
Qed.

Lemma unrecognized_character_is_fatal_witness :
  String.get 2 "a $" = Some "$"%char /\ recognized "$" = false /\
  run_tokenize "a $" = Fail exit_failure.
Proof.
  split; [reflexivity|]. split; [reflexivity|].
  apply (unrecognized_character_is_fatal "a $" 2 "$"); [reflexivity | reflexivity |].
  right. intros k Hk [H _].
  destruct k as [|[|k]]; [discriminate H | discriminate H | lia].
Defined.

Lemma word_is_taken_whole_witness :
  exists tok,
    tokenize_body "if x" entry = Ok (tt, mkState 2 [tok] EmptyString 1) /\
    tok = mkToken TokenType.if_ 1 None.
Proof.
  destruct (word_is_taken_whole "if x" entry "if") as [(tok & Hbody & Hkind & _) _].
  - apply reaches_entry.
  - intros k Hk. destruct k as [|[|k]]; [reflexivity | reflexivity | simpl in Hk; lia].
  - exists "i"%char. split; reflexivity.
  - intros k d. destruct k as [|[|k]]; simpl; intros [= <-]; reflexivity.
  - simpl. intros d [= <-]. reflexivity.
  - exists tok. split; [exact Hbody|].
    destruct Hkind as [(k & Hin & ->) | (Hnot & _)].
    + simpl in Hin.
      repeat (destruct Hin as [Hin|Hin]; [injection Hin as <-; try discriminate; try reflexivity|]).
      destruct Hin.
    + exfalso. apply (Hnot TokenType.if_). simpl. tauto.
Defined.

Lemma unterminated_block_comment_witness :
  run_tokenize "x /* y" = Ok [mkToken TokenType.ident 1 (Some "x")].
Proof.
  assert (Hs : reaches "x /* y"
                 (mkState 2 [mkToken TokenType.ident 1 (Some "x")] EmptyString 1)).
  { eapply reaches_round with (s := mkState 1 _ EmptyString 1);
      [eapply reaches_round with (s := entry); [apply reaches_entry | simpl; lia |]
      | simpl; lia |]; vm_compute; reflexivity. }
  apply (unterminated_block_comment "x /* y" _ Hs); [reflexivity | reflexivity |].
  intros k Hk [H _]. simpl in Hk.
  do 6 (destruct k as [|k]; [try lia; try discriminate H|]). discriminate H.
Defined.

(** * Further properties of the tokenizer *)

Section Rounds.
Variable src : string.

(** ** Rounds from the states the loop goes through *)

Lemma round_at (s : state) (c : ascii) :
  reaches src s -> String.get (m_index s) src = Some c ->
  round src s (tokenize_body src s).
Proof.
  intros Hs Hc. apply (body_round src s c Hc). apply (reaches_inv src s Hs).
Qed.

Lemma round_fail (s : state) (e : failure) :
  round src s (Fail e) ->
  e = exit_failure /\
  exists c, String.get (m_index s) src = Some c /\ recognized c = false.
Proof. inversion 1; subst. eauto. Qed.

(** An invariant of the rounds holds of every state the loop goes
    through. *)
Lemma reached_invariant (P : state -> Prop) :
  P entry ->
  (forall s s', reaches src s -> P s ->
     round src s (Ok (tt, s')) -> P s') ->
  forall s, reaches src s -> P s.
Proof.
  intros H0 Hstep. induction 1 as [|s s' Hs IH Hlt Hbody]; [assumption|].
  destruct (get_lt_some _ _ Hlt) as [c Hc].
  apply (Hstep s s' Hs IH). rewrite <- Hbody. now apply (round_at s c).
Qed.

(** The state the loop ends in is one it goes through, with the cursor at
    the end of the text. *)
Lemma loop_ends_reached (s' : state) :
  tokenize_loop src entry = Ok (tt, s') ->
  reaches src s' /\ m_index s' = String.length src.
Proof.
  intros Hrun.
  destruct (while_rule (reaches src) (fun _ => True)
              (fun s => String.length src - m_index s)
              _ (tokenize_body src)
              (fun s => has_value (String.get (m_index s) src))
              (fun s _ => loop_cond_get src s)) with (n := fuel src) (s := entry)
    as [(s2 & Hrun2 & Hs2 & Hstop) | (e & Hrun2 & _)].
  - intros s Hs Ht. apply has_value_get in Ht.
    destruct (body_keeps src s (reaches_inv src s Hs) Ht)
      as [(s2 & Hb & _ & Hlt & _) | Hb].
    + left. exists s2. split; [assumption|]. split; [|lia].
      eapply reaches_round; eauto.
    + right. eauto.
  - apply reaches_entry.
  - unfold fuel. simpl. lia.
  - unfold tokenize_loop in Hrun. rewrite Hrun in Hrun2. injection Hrun2 as <-.
    split; [assumption|].
    pose proof (index_le_length src s' Hs2) as Hle.
    destruct (Nat.eq_dec (m_index s') (String.length src)) as [|Hne]; [assumption|].
    assert (Hlt : m_index s' < String.length src) by lia.
    apply has_value_get in Hlt. congruence.
  - unfold tokenize_loop in Hrun. congruence.
Qed.

Lemma result_reached (ts : list Token) :
  run_tokenize src = Ok ts ->
  exists s, reaches src s /\ m_index s = String.length src /\ tokens s = ts.
Proof.
  rewrite run_tokenize_loop.
  destruct (tokenize_loop src entry) as [[[] s']|e] eqn:Hrun; [|discriminate].
  intros [= <-]. destruct (loop_ends_reached s' Hrun). eauto.
Qed.

(** ** Character classes *)

Lemma digit_not_alpha (c : ascii) : isdigit c = true -> isalpha c = false.
Proof.
  unfold isdigit, isalpha, isupper, islower.
  repeat match goal with |- context [N.leb ?a ?b] => destruct (N.leb_spec a b) end;
    simpl; try reflexivity; try discriminate; lia.
Qed.

Lemma space_not_digit (c : ascii) : isspace c = true -> isdigit c = false.
Proof.
  unfold isspace, isdigit.
  destruct (N.eqb_spec (code c) 32); repeat
    match goal with |- context [N.leb ?a ?b] => destruct (N.leb_spec a b) end;
    simpl; try reflexivity; try discriminate; lia.
Qed.

Lemma newline_is_space : isspace newline = true.
Proof. reflexivity. Qed.

Lemma punctuation_class (c : ascii) (ty : TokenType) :
  In (c, ty) punctuation ->
  isalpha c = false /\ isdigit c = false /\ isspace c = false /\
  ty <> TokenType.ident /\ ty <> TokenType.int_lit.
Proof.
  unfold punctuation. simpl.
  intros H.
  repeat (destruct H as [H|H];
          [injection H as <- <-; repeat split; (reflexivity || discriminate)|]).
  destruct H.
Qed.

Lemma punctuation_kind (c : ascii) (ty ty' : TokenType) :
  In (c, ty) punctuation -> In (c, ty') punctuation -> ty = ty'.
Proof.
  unfold punctuation. simpl. intros H H'.
  repeat (destruct H as [H|H];
          [injection H as <- <-;
           repeat (destruct H' as [H'|H']; [congruence|]);
           destruct H'|]).
  destruct H.
Qed.

Lemma space_recognized (c : ascii) : isspace c = true -> recognized c = true.
Proof.
  intros H. unfold recognized. rewrite H. apply orb_true_r.
Qed.

(** ** Failure *)

Lemma failure_has_a_cause :
  run_tokenize src = Fail exit_failure ->
  exists s c, reaches src s /\ String.get (m_index s) src = Some c /\
              recognized c = false.
Proof.
  rewrite run_tokenize_loop. intros Hrun.
  destruct (while_rule (reaches src)
              (fun _ => exists s c, reaches src s /\
                 String.get (m_index s) src = Some c /\ recognized c = false)
              (fun s => String.length src - m_index s)
              _ (tokenize_body src)
              (fun s => has_value (String.get (m_index s) src))
              (fun s _ => loop_cond_get src s)) with (n := fuel src) (s := entry)
    as [(s2 & Hrun2 & _) | (e & _ & Hq)].
  - intros s Hs Ht. apply has_value_get in Ht.
    destruct (get_lt_some _ _ Ht) as [c Hc].
    pose proof (round_at s c Hs Hc) as Hr.
    destruct (body_keeps src s (reaches_inv src s Hs) Ht)
      as [(s2 & Hb & _ & Hlt & _) | Hb].
    + left. exists s2. split; [assumption|]. split; [|lia].
      eapply reaches_round; eauto.
    + right. exists exit_failure. split; [assumption|].
      rewrite Hb in Hr. destruct (round_fail s _ Hr) as (_ & c' & Hc' & Hun).
      eauto.
  - apply reaches_entry.
  - unfold fuel. simpl. lia.
  - unfold tokenize_loop in Hrun. rewrite Hrun2 in Hrun. discriminate.
  - exact Hq.
Qed.

Lemma recognized_text_is_tokenized :
  (forall k c, String.get k src = Some c -> recognized c = true) ->
  exists ts, run_tokenize src = Ok ts.
Proof.
  intros Hall.
  destruct (run_tokenize src) as [ts|e] eqn:Hrun; [eauto|]. exfalso.
  assert (e = exit_failure) as ->.
  { rewrite run_tokenize_loop in Hrun.
    destruct (loop_total src entry (entry_inv src)) as [(s' & Hl & _) | Hl];
      rewrite Hl in Hrun; congruence. }
  destruct (failure_has_a_cause Hrun) as (s & c & _ & Hc & Hun).
  rewrite (Hall _ _ Hc) in Hun. discriminate.
Qed.

(** Tokenization fails exactly when the scanner, at the top of a round,
    is on a character of no category; a text made of recognized
    characters alone is always tokenized. *)
Theorem fails_only_on_unrecognized :
  (run_tokenize src = Fail exit_failure <->
   exists s c, reaches src s /\ String.get (m_index s) src = Some c /\
               recognized c = false) /\
  ((forall k c, String.get k src = Some c -> recognized c = true) ->
   exists ts, run_tokenize src = Ok ts).
Proof.
  split; [split; [exact failure_has_a_cause|]|exact recognized_text_is_tokenized].
  intros (s & c & Hs & Hc & Hun).
  rewrite run_tokenize_loop, (loop_from_reached src s Hs).
  unfold tokenize_loop, fuel.
  rewrite while_unfold, loop_cond_get, Hc. cbn [has_value].
  now rewrite (fatal_round src s c (reaches_inv src s Hs) Hc Hun).
Qed.

(** ** The tokens returned *)

(** Every token uses up at least one character: at the top of each round
    there are at most as many tokens as characters consumed, so the
    sequence returned is no longer than the text. *)
Theorem tokens_at_most_characters (ts : list Token) :
  run_tokenize src = Ok ts -> length ts <= String.length src.
Proof.
  intros Hrun. destruct (result_reached ts Hrun) as (s & Hs & Hend & <-).
  rewrite <- Hend. clear Hrun Hend. revert s Hs.
  apply (reached_invariant (fun s => length (tokens s) <= m_index s)); [simpl; lia|].
  intros s s' Hs IH Hr.
  inversion Hr; subst; cbn [m_index tokens]; rewrite ?length_app; simpl; lia.
Qed.

Lemma substring_get (i n k : nat) (d : ascii) :
  String.get k (String.substring i n src) = Some d ->
  k < n /\ String.get (i + k) src = Some d.
Proof.
  intros H. destruct (Nat.lt_ge_cases k n) as [Hlt|Hge].
  - rewrite String.substring_correct1 in H by assumption.
    now rewrite Nat.add_comm.
  - rewrite String.substring_correct2 in H by assumption. discriminate.
Qed.

Lemma keyword_kind_text (b : string) (k : TokenType) (l : Z) :
  keyword_of b = Some k -> text_ok (mkToken k l None).
Proof.
  intros Hk. pose proof (keyword_of_keywords b) as H. rewrite Hk in H.
  unfold keywords in H. simpl in H.
  repeat (destruct H as [H|H]; [injection H as _ <-; exact Logic.I|]).
  destruct H.
Qed.

(** The text of an identifier is a letter followed by letters and digits
    and is none of the reserved spellings; the text of an integer literal
    is made of digits. *)
Theorem token_texts (ts : list Token) :
  run_tokenize src = Ok ts -> Forall text_ok ts.
Proof.
  intros Hrun. destruct (result_reached ts Hrun) as (s & Hs & _ & <-).
  clear Hrun. revert s Hs.
  apply (reached_invariant (fun s => Forall text_ok (tokens s))); [constructor|].
  intros s s' Hs IH Hr.
  inversion Hr as [c j Hc Ha Hj Hall Hstop | c j Hc Ha Hd Hj Hall Hstop
                  | | | c ty Hc Hin Hno | | | ]; subst; cbn [tokens]; try assumption;
    apply Forall_app; (split; [assumption|]); constructor; try constructor.
  - unfold word_token.
    destruct (keyword_of _) as [k|] eqn:Hk; [exact (keyword_kind_text _ k _ Hk)|].
    unfold text_ok. cbn [type value]. eexists. split; [reflexivity|].
    split; [|split; [|exact Hk]].
    + exists c. split; [|assumption].
      rewrite String.substring_correct1 by lia. exact Hc.
    + intros k d Hd. apply substring_get in Hd. destruct Hd as [Hk' Hd].
      destruct k as [|k].
      * rewrite Nat.add_0_r in Hd. assert (d = c) by congruence. subst d.
        unfold isalnum. now rewrite Ha.
      * destruct (Hall (m_index s + S k) ltac:(lia)) as (d' & Hd' & Hal).
        congruence.
  - unfold text_ok. cbn [type value]. eexists. split; [reflexivity|].
    intros k d Hg. apply substring_get in Hg. destruct Hg as [Hk' Hd'].
    destruct k as [|k].
    + rewrite Nat.add_0_r in Hd'. congruence.
    + destruct (Hall (m_index s + S k) ltac:(lia)) as (d' & Hd'' & Hal).
      congruence.
  - destruct (punctuation_class c ty Hin) as (_ & _ & _ & Hni & Hnl).
    unfold text_ok. cbn [type]. now destruct ty.
Qed.

(** A text of white space alone (the empty text among them) gives the
    empty sequence. *)
Theorem blank_text_has_no_tokens :
  (forall k c, String.get k src = Some c -> isspace c = true) ->
  run_tokenize src = Ok [].
Proof.
  intros Hblank.
  destruct recognized_text_is_tokenized as [ts Hrun].
  { intros k c Hc. apply space_recognized. eauto. }
  rewrite Hrun. f_equal.
  destruct (result_reached ts Hrun) as (s & Hs & _ & <-).
  clear Hrun. revert s Hs.
  apply (reached_invariant (fun s => tokens s = [])); [reflexivity|].
  intros s s' Hs IH Hr.
  inversion Hr as [c j Hc Ha Hj Hall Hstop | c j Hc Ha Hd Hj Hall Hstop
                  | j Hc Hn | j Hc Hn | c ty Hc Hin Hno | | | ]; subst;
    cbn [tokens]; try assumption; exfalso; pose proof (Hblank _ _ Hc) as Hsp.
  - pose proof (space_not_alpha src c Hsp). congruence.
  - pose proof (space_not_digit c Hsp). congruence.
  - destruct (punctuation_class c ty Hin) as (_ & _ & H & _). congruence.
Qed.

(** ** Rounds by category *)

(** The round at a newline. *)
Lemma newline_round (s : state) :
  reaches src s ->
  String.get (m_index s) src = Some newline ->
  tokenize_body src s =
    Ok (tt, mkState (S (m_index s)) (tokens s) EmptyString
              (int_wrap (line_count s + 1))).
Proof.
  intros Hs Hc.
  pose proof (round_at s _ Hs Hc) as Hr.
  remember (tokenize_body src s) as r eqn:Er. clear Er.
  destruct Hr as [c1 j1 Hc1 Ha1 | c1 j1 Hc1 Ha1 Hd1 | j1 Hc1 | j1 Hc1
                 | c1 ty1 Hc1 Hin1 | Hc1 | c1 Hc1 Hsp1 Hne1 | c1 Hc1 Hun1];
    try (assert (c1 = newline) by congruence; subst c1);
    try (now vm_compute in Ha1); try (now vm_compute in Hd1);
    try (now vm_compute in Hun1); try reflexivity; try congruence.
  - exfalso. unfold newline in *. congruence.
  - exfalso. unfold newline in *. congruence.
  - destruct (punctuation_class _ _ Hin1) as (_ & _ & Hsp1 & _).
    now vm_compute in Hsp1.
Qed.

(** The round at a single-character lexeme. *)
Lemma punctuation_round (s : state) (c : ascii) (ty : TokenType) :
  reaches src s ->
  String.get (m_index s) src = Some c ->
  In (c, ty) punctuation ->
  ~ opener_at src (m_index s) ->
  tokenize_body src s =
    Ok (tt, mkState (S (m_index s))
              (tokens s ++ [mkToken ty (line_count s) None])
              EmptyString (line_count s)).
Proof.
  intros Hs Hc Hin Hno.
  destruct (punctuation_class c ty Hin) as (Ha & Hd & Hsp & _).
  pose proof (round_at s c Hs Hc) as Hr.
  remember (tokenize_body src s) as r eqn:Er. clear Er.
  destruct Hr as [c' j Hc' Ha' Hj Hall Hstop | c' j Hc' Ha' Hd' Hj Hall Hstop
                 | j Hc' Hn' Hj Hall Hstop | j Hc' Hn' Hj Hall Hstop
                 | c' ty' Hc' Hin' Hnop | Hc' | c' Hc' Hsp' Hne' | c' Hc' Hun'];
    try (assert (c' = c) by congruence; subst c'); try congruence.
  - exfalso. apply Hno. split; auto.
  - exfalso. apply Hno. split; auto.
  - now rewrite (punctuation_kind c ty ty' Hin Hin').
  - exfalso. assert (c = newline) by congruence. subst c. now vm_compute in Hsp.
  - exfalso. destruct (punctuation_recognized c ty Hin). congruence.
Qed.

(** A state the loop goes through with the cursor at the end of the text
    is the one the loop ends in. *)
Lemma reached_end (s : state) :
  reaches src s -> m_index s = String.length src ->
  tokenize_loop src entry = Ok (tt, s) /\ run_tokenize src = Ok (tokens s).
Proof.
  intros Hs Hend.
  assert (Hloop : tokenize_loop src entry = Ok (tt, s)).
  { rewrite (loop_from_reached src s Hs). unfold tokenize_loop, fuel.
    rewrite while_unfold, loop_cond_get, Hend.
    now rewrite (proj2 (get_none_iff src _) (Nat.le_refl _)). }
  split; [exact Hloop|]. now rewrite run_tokenize_loop, Hloop.
Qed.

(** An integer literal is taken whole: at the first of a maximal run of
    digits, one round consumes exactly the run and adds the token
    [int_lit] carrying it, on the current line.  The run ends at the first
    character that is no digit, a letter included. *)
Theorem number_is_taken_whole (s : state) (run : string) :
  reaches src s ->
  run <> EmptyString ->
  (forall k, k < String.length run ->
     String.get (m_index s + k) src = String.get k run) ->
  (forall k d, String.get k run = Some d -> isdigit d = true) ->
  (forall d, String.get (m_index s + String.length run) src = Some d ->
     isdigit d = false) ->
  tokenize_body src s =
    Ok (tt, mkState (m_index s + String.length run)
              (tokens s ++ [mkToken TokenType.int_lit (line_count s) (Some run)])
              EmptyString (line_count s)).
Proof.
  intros Hs Hne Hrun Hdig Hmax.
  assert (Hn : 0 < String.length run) by (destruct run; [congruence | simpl; lia]).
  destruct (get_lt_some run 0 Hn) as [c Hc0].
  assert (Hc : String.get (m_index s) src = Some c).
  { rewrite <- Hc0, <- (Hrun 0 Hn). f_equal. lia. }
  pose proof (Hdig _ _ Hc0) as Hd.
  pose proof (round_at s c Hs Hc) as Hr.
  remember (tokenize_body src s) as r eqn:Er. clear Er.
  destruct Hr as [c' j Hc' Ha' Hj Hall Hstop | c' j Hc' Ha' Hd' Hj Hall Hstop
                 | j Hc' Hn' Hj Hall Hstop | j Hc' Hn' Hj Hall Hstop
                 | c' ty Hc' Hin Hnop | Hc' | c' Hc' Hsp' Hne' | c' Hc' Hun'].
  - assert (c = c') by congruence. subst c'.
    pose proof (digit_not_alpha c Hd). congruence.
  - assert (Ej : j = m_index s + String.length run).
    { destruct (Nat.lt_trichotomy j (m_index s + String.length run))
        as [Hlt | [Heq | Hgt]]; [exfalso | assumption | exfalso].
      - specialize (Hrun (j - m_index s) ltac:(lia)).
        replace (m_index s + (j - m_index s)) with j in Hrun by lia.
        destruct (get_lt_some run (j - m_index s) ltac:(lia)) as [d Hd2].
        rewrite Hd2 in Hrun. pose proof (Hstop d Hrun) as H1.
        pose proof (Hdig _ d Hd2) as H2. congruence.
      - destruct (Hall (m_index s + String.length run) ltac:(lia)) as (d & Hd2 & Hal).
        pose proof (Hmax d Hd2). congruence. }
    subst j.
    replace (m_index s + String.length run - m_index s) with (String.length run) by lia.
    now rewrite (substring_is src _ _ Hrun).
  - assert (c = "/"%char) by congruence. subst c. now vm_compute in Hd.
  - assert (c = "/"%char) by congruence. subst c. now vm_compute in Hd.
  - assert (c = c') by congruence. subst c'.
    destruct (punctuation_class _ _ Hin) as (_ & H & _). congruence.
  - assert (c = newline) by congruence. subst c. now vm_compute in Hd.
  - assert (c = c') by congruence. subst c'.
    pose proof (space_not_digit _ Hsp'). congruence.
  - assert (c = c') by congruence. subst c'.
    destruct (unrecognized_facts _ Hun') as (_ & H & _). congruence.
Qed.

(** A single-character lexeme gives its token: at one of [( ) ; = + * - /
    { } :] (for [/], when neither [/] nor [*] follows), one round consumes
    that character and adds the token of its kind, without text, on the
    current line. *)
Theorem punctuation_gives_its_token (s : state) (c : ascii) (ty : TokenType) :
  reaches src s ->
  String.get (m_index s) src = Some c ->
  In (c, ty) punctuation ->
  ~ opener_at src (m_index s) ->
  tokenize_body src s =
    Ok (tt, mkState (S (m_index s))
              (tokens s ++ [mkToken ty (line_count s) None])
              EmptyString (line_count s)).
Proof.
  intros Hs Hc Hin Hno.
  destruct (punctuation_class c ty Hin) as (Ha & Hd & Hsp & _).
  pose proof (round_at s c Hs Hc) as Hr.
  remember (tokenize_body src s) as r eqn:Er. clear Er.
  destruct Hr as [c' j Hc' Ha' Hj Hall Hstop | c' j Hc' Ha' Hd' Hj Hall Hstop
                 | j Hc' Hn' Hj Hall Hstop | j Hc' Hn' Hj Hall Hstop
                 | c' ty' Hc' Hin' Hnop | Hc' | c' Hc' Hsp' Hne' | c' Hc' Hun'];
    try (assert (c' = c) by congruence; subst c'); try congruence.
  - exfalso. apply Hno. split; auto.
  - exfalso. apply Hno. split; auto.
  - now rewrite (punctuation_kind c ty ty' Hin Hin').
  - exfalso. assert (c = newline) by congruence. subst c. now vm_compute in Hsp.
  - exfalso. destruct (punctuation_recognized c ty Hin). congruence.
Qed.

(** A line comment ends before the newline: at [//], one round moves the
    cursor to the first newline after the two slashes, or to the end of
    the text when there is none, and changes neither the tokens nor the
    line counter; the newline it stops at is counted by the round that
    follows, which increments the line counter (by one, unless the [int]
    is at its largest value). *)
Theorem line_comment_stops_at_newline (s : state) :
  reaches src s ->
  String.get (m_index s) src = Some "/"%char ->
  String.get (S (m_index s)) src = Some "/"%char ->
  exists j,
    S (S (m_index s)) <= j <= String.length src /\
    (forall k, S (S (m_index s)) <= k < j -> String.get k src <> Some newline) /\
    tokenize_body src s = Ok (tt, mkState j (tokens s) EmptyString (line_count s)) /\
    (j = String.length src \/
     (String.get j src = Some newline /\
      tokenize_body src (mkState j (tokens s) EmptyString (line_count s)) =
        Ok (tt, mkState (S j) (tokens s) EmptyString
                  (int_wrap (line_count s + 1))) /\
      ((line_count s < 2 ^ 31 - 1)%Z ->
       int_wrap (line_count s + 1) = (line_count s + 1)%Z))).
Proof.
  intros Hs Hc Hn.
  pose proof (round_at s _ Hs Hc) as Hr.
  remember (tokenize_body src s) as r eqn:Er.
  destruct Hr as [c' j Hc' Ha' Hj Hall Hstop | c' j Hc' Ha' Hd' Hj Hall Hstop
                 | j Hc' Hn' Hj Hall Hstop | j Hc' Hn' Hj Hall Hstop
                 | c' ty' Hc' Hin' Hnop | Hc' | c' Hc' Hsp' Hne' | c' Hc' Hun'];
    try (assert (c' = "/"%char) by congruence; subst c');
    try (now vm_compute in Ha'); try (now vm_compute in Hd');
    try (now vm_compute in Hsp'); try (now vm_compute in Hun');
    try congruence.
  - exists j. split; [assumption|]. split; [assumption|]. split; [reflexivity|].
    destruct Hstop as [Hnone | Hnl].
    + left. apply get_none_iff in Hnone. lia.
    + right. split; [assumption|].
      assert (Hs1 : reaches src (mkState j (tokens s) EmptyString (line_count s))).
      { eapply reaches_round; [exact Hs | eapply get_some_lt; eauto | congruence]. }
      split; [exact (newline_round _ Hs1 Hnl)|].
      intros Hmax. apply int_wrap_small.
      pose proof (line_count_in_int_range src s Hs). lia.
  - exfalso. apply Hnop. split; auto.
  - unfold newline in Hc'. congruence.
Qed.

(** A block comment ends behind the first closing pair found from the
    second character after the opener on: at [/*], when [*/] first starts
    at index [j] (at least two past the opener, so the text [/*/] is not
    closed), one round moves the cursor to [j + 2] and changes neither
    the tokens nor the line counter, whatever the comment holds. *)
Theorem block_comment_ends_after_closing (s : state) (j : nat) :
  reaches src s ->
  String.get (m_index s) src = Some "/"%char ->
  String.get (S (m_index s)) src = Some "*"%char ->
  S (S (m_index s)) <= j ->
  closing_at src j ->
  (forall k, S (S (m_index s)) <= k < j -> ~ closing_at src k) ->
  tokenize_body src s =
    Ok (tt, mkState (j + 2) (tokens s) EmptyString (line_count s)).
Proof.
  intros Hs Hc Hn Hj Hcl Hfirst.
  assert (Hlen : S j < String.length src).
  { destruct Hcl as [_ H]. eapply get_some_lt; eauto. }
  pose proof (round_at s _ Hs Hc) as Hr.
  remember (tokenize_body src s) as r eqn:Er. clear Er.
  destruct Hr as [c' j' Hc' Ha' Hj' Hall Hstop | c' j' Hc' Ha' Hd' Hj' Hall Hstop
                 | j' Hc' Hn' Hj' Hall Hstop | j' Hc' Hn' Hj' Hall Hstop
                 | c' ty' Hc' Hin' Hnop | Hc' | c' Hc' Hsp' Hne' | c' Hc' Hun'];
    try (assert (c' = "/"%char) by congruence; subst c');
    try (now vm_compute in Ha'); try (now vm_compute in Hd');
    try (now vm_compute in Hsp'); try (now vm_compute in Hun');
    try congruence.
  - assert (j' = j) as ->.
    { destruct (Nat.lt_trichotomy j' j) as [Hlt | [Heq | Hgt]]; [exfalso | assumption | exfalso].
      - destruct Hstop as [Hcl' | ->]; [|lia]. apply (Hfirst j'); [lia | assumption].
      - apply (Hall j); [lia | assumption]. }
    now rewrite Nat.min_l by lia.
  - exfalso. apply Hnop. split; auto.
  - unfold newline in Hc'. congruence.
Qed.

(** ** Line numbers *)

Lemma newline_at (k : nat) :
  sat_at src (fun c => Ascii.eqb c newline) k = true <->
  String.get k src = Some newline.
Proof.
  unfold sat_at. destruct (String.get k src) as [d|]; [|split; discriminate].
  destruct (Ascii.eqb_spec d newline) as [->|Hne]; [tauto|].
  split; [discriminate | congruence].
Qed.

Lemma count_newlines_le (i j : nat) :
  i <= j -> count_newlines src i <= count_newlines src j.
Proof. induction 1; simpl; lia. Qed.

Lemma count_newlines_flat (i j : nat) :
  i <= j ->
  (forall k, i <= k < j -> String.get k src <> Some newline) ->
  count_newlines src j = count_newlines src i.
Proof.
  induction 1 as [|j Hle IH]; intros Hno; [reflexivity|].
  simpl. rewrite IH by (intros; apply Hno; lia).
  destruct (sat_at src _ j) eqn:E; [|lia].
  apply newline_at in E. exfalso. apply (Hno j); [lia | assumption].
Qed.

Lemma count_newlines_next (i : nat) :
  String.get i src = Some newline ->
  count_newlines src (S i) = S (count_newlines src i).
Proof.
  intros H. simpl. apply newline_at in H. rewrite H. lia.
Qed.

Lemma alnum_not_newline (d : ascii) : isalnum d = true -> d <> newline.
Proof. intros H ->. now vm_compute in H. Qed.

(** What a round does to the line counter, against the newlines it
    passes: the round at a newline passes one and increments the counter;
    every other round leaves the counter alone and passes no newline,
    except in a block comment. *)
Lemma round_lines (s s' : state) :
  round src s (Ok (tt, s')) ->
  m_index s <= m_index s' /\
  ((count_newlines src (m_index s') = S (count_newlines src (m_index s)) /\
    line_count s' = int_wrap (line_count s + 1)) \/
   (line_count s' = line_count s /\
    (count_newlines src (m_index s') = count_newlines src (m_index s) \/
     (String.get (m_index s) src = Some "/"%char /\
      String.get (S (m_index s)) src = Some "*"%char)))).
Proof.
  intros Hr.
  inversion Hr as [c j Hc Ha Hj Hall Hstop | c j Hc Ha Hd Hj Hall Hstop
                  | j Hc Hn Hj Hall Hstop | j Hc Hn Hj Hall Hstop
                  | c ty Hc Hin Hno | Hc | c Hc Hsp Hne | ]; subst;
    cbn [m_index line_count];
    try pose proof (get_some_lt _ _ _ Hc) as Hlt.
  - split; [lia|]. right. split; [reflexivity|]. left.
    apply count_newlines_flat; [lia|].
    intros k Hk E. destruct (Nat.eq_dec k (m_index s)) as [->|Hne].
    + assert (c = newline) by congruence. subst c. now vm_compute in Ha.
    + destruct (Hall k ltac:(lia)) as (d & Hd & Hal).
      apply (alnum_not_newline d Hal). congruence.
  - split; [lia|]. right. split; [reflexivity|]. left.
    apply count_newlines_flat; [lia|].
    intros k Hk E. destruct (Nat.eq_dec k (m_index s)) as [->|Hne].
    + assert (c = newline) by congruence. subst c. now vm_compute in Hd.
    + destruct (Hall k ltac:(lia)) as (d & Hd' & Hal).
      assert (d = newline) by congruence. subst d. now vm_compute in Hal.
  - split; [lia|]. right. split; [reflexivity|]. left.
    apply count_newlines_flat; [lia|].
    intros k Hk E.
    destruct (Nat.eq_dec k (m_index s)) as [->|Hne1];
      [unfold newline in E; congruence|].
    destruct (Nat.eq_dec k (S (m_index s))) as [->|Hne2];
      [unfold newline in E; congruence|].
    apply (Hall k); [lia | assumption].
  - split; [lia|]. right. split; [reflexivity|]. right. auto.
  - split; [lia|]. right. split; [reflexivity|]. left.
    apply count_newlines_flat; [lia|].
    intros k Hk E. assert (k = m_index s) by lia. subst k.
    assert (c = newline) by congruence. subst c.
    destruct (punctuation_class _ _ Hin) as (_ & _ & H & _). now vm_compute in H.
  - split; [lia|]. left. split; [|reflexivity]. now apply count_newlines_next.
  - split; [lia|]. right. split; [reflexivity|]. left.
    apply count_newlines_flat; [lia|].
    intros k Hk E. assert (k = m_index s) by lia. subst k. congruence.
Qed.

(** A round adds at most one token, on the line the counter shows at
    its first character. *)
Lemma round_tokens (s s' : state) :
  round src s (Ok (tt, s')) ->
  tokens s' = tokens s \/
  exists tok, tokens s' = tokens s ++ [tok] /\ line tok = line_count s.
Proof.
  intros Hr.
  inversion Hr; subst; cbn [tokens]; try (left; reflexivity);
    right; eexists; (split; [reflexivity|]);
    first [apply word_token_line | reflexivity].
Qed.

Lemma round_token_line (s s' : state) (tok : Token) :
  round src s (Ok (tt, s')) ->
  tokens s' = tokens s ++ [tok] -> line tok = line_count s.
Proof.
  intros Hr E. destruct (round_tokens s s' Hr) as [E' | (tok' & E' & Hl)].
  - exfalso. rewrite E' in E. apply (f_equal (@length Token)) in E.
    rewrite length_app in E. simpl in E. lia.
  - rewrite E' in E. apply app_inv_head in E. now injection E as <-.
Qed.

Lemma round_inside (s s' : state) :
  reaches src s -> round src s (Ok (tt, s')) ->
  m_index s' <= String.length src.
Proof.
  intros Hs Hr.
  destruct (round_keeps src s _ (reaches_inv src s Hs) Hr)
    as [(s2 & [= <-] & (Hi & _) & _) | [=]]. exact Hi.
Qed.

Lemma lines_upper (s : state) :
  reaches src s ->
  (line_count s <= 1 + Z.of_nat (count_newlines src (m_index s)))%Z /\
  Forall (fun t => (line t <= 1 + Z.of_nat (count_newlines src (String.length src)))%Z)
    (tokens s).
Proof.
  revert s.
  apply (reached_invariant (fun s =>
    (line_count s <= 1 + Z.of_nat (count_newlines src (m_index s)))%Z /\
    Forall (fun t => (line t <= 1 + Z.of_nat (count_newlines src (String.length src)))%Z)
      (tokens s))); [split; [simpl; lia | constructor]|].
  intros s s' Hs [IH1 IH2] Hr.
  pose proof (line_count_in_int_range src s Hs) as Hrange.
  pose proof (index_le_length src s Hs) as Hi.
  pose proof (count_newlines_le _ _ Hi) as Hci.
  destruct (round_lines s s' Hr) as [Hle Hcase].
  pose proof (count_newlines_le _ _ Hle) as Hc.
  split.
  - destruct Hcase as [[Hn ->] | [-> _]]; [|lia].
    pose proof (int_wrap_le (line_count s + 1) ltac:(lia)). lia.
  - destruct (round_tokens s s' Hr) as [-> | (tok & -> & Hl)]; [assumption|].
    apply Forall_app. split; [assumption|]. constructor; [lia | constructor].
Qed.

(** The line counter never runs ahead of the text: at the top of every
    round it is at most one more than the number of newlines before the
    cursor, and so is the line of every token. *)
Theorem lines_at_most_newlines (s : state) :
  reaches src s ->
  (line_count s <= 1 + Z.of_nat (count_newlines src (m_index s)))%Z /\
  Forall (fun t => (line t <= 1 + Z.of_nat (count_newlines src (String.length src)))%Z)
    (tokens s).
Proof.
  intros Hs. destruct (lines_upper s Hs) as [H1 H2]. split; assumption.
Qed.

(** Where the counted newlines stay below the largest [int], the line
    counter keeps the lines in order. *)
Lemma lines_kept (s : state) :
  (Z.of_nat (count_newlines src (String.length src)) < 2 ^ 31 - 1)%Z ->
  reaches src s -> lines_inv s.
Proof.
  intros Hbound. revert s.
  apply (reached_invariant lines_inv);
    [unfold lines_inv, entry; simpl; split; [lia | split; [exact Logic.I | constructor]]|].
  intros s s' Hs (H1 & Hsorted & Hall) Hr.
  destruct (lines_upper s Hs) as [Hup _].
  pose proof (round_inside s s' Hs Hr) as Hi'.
  pose proof (count_newlines_le _ _ Hi') as Hc'.
  destruct (round_lines s s' Hr) as [Hle Hcase].
  assert (Hline : (line_count s <= line_count s')%Z).
  { destruct Hcase as [[Hn ->] | [-> _]]; [|lia].
    rewrite int_wrap_small; lia. }
  unfold lines_inv. split; [lia|].
  destruct (round_tokens s s' Hr) as [-> | (tok & -> & Hl)].
  - split; [assumption|].
    eapply Forall_impl; [exact Hall|]. simpl. intros; lia.
  - split.
    + apply lines_sorted_snoc; [assumption|].
      eapply Forall_impl; [exact Hall|]. simpl. intros; lia.
    + apply Forall_app. split.
      * eapply Forall_impl; [exact Hall|]. simpl. intros; lia.
      * constructor; [lia | constructor].
Qed.

Lemma lines_exact (s : state) :
  (Z.of_nat (count_newlines src (String.length src)) < 2 ^ 31 - 1)%Z ->
  (forall k, ~ (String.get k src = Some "/"%char /\
                String.get (S k) src = Some "*"%char)) ->
  reaches src s ->
  line_count s = (1 + Z.of_nat (count_newlines src (m_index s)))%Z.
Proof.
  intros Hbound Hnone. revert s.
  apply (reached_invariant
           (fun s => line_count s = (1 + Z.of_nat (count_newlines src (m_index s)))%Z));
    [reflexivity|].
  intros s s' Hs IH Hr.
  pose proof (round_inside s s' Hs Hr) as Hi'.
  pose proof (count_newlines_le _ _ Hi') as Hc'.
  destruct (round_lines s s' Hr) as [Hle [[Hn ->] | [-> [Hsame | [H1 H2]]]]].
  - rewrite int_wrap_small; lia.
  - lia.
  - exfalso. apply (Hnone (m_index s)). auto.
Qed.

(** In a text without [/*] and with fewer than [2^31 - 1] newlines, line
    numbers are exact: at the top of every round the line counter is one
    more than the number of newlines before the cursor, and a token added
    by the round is given that number, the cursor being at its first
    character. *)
Theorem lines_exact_without_block_comments (s : state) :
  (Z.of_nat (count_newlines src (String.length src)) < 2 ^ 31 - 1)%Z ->
  (forall k, ~ (String.get k src = Some "/"%char /\
                String.get (S k) src = Some "*"%char)) ->
  reaches src s ->
  line_count s = (1 + Z.of_nat (count_newlines src (m_index s)))%Z /\
  (forall s' tok,
     tokenize_body src s = Ok (tt, s') ->
     tokens s' = tokens s ++ [tok] ->
     line tok = (1 + Z.of_nat (count_newlines src (m_index s)))%Z).
Proof.
  intros Hbound Hnone Hs.
  pose proof (lines_exact s Hbound Hnone Hs) as H.
  split; [exact H|].
  intros s' tok Hbody Htok. rewrite <- H.
  apply (round_token_line s s'); [|assumption].
  destruct (String.get (m_index s) src) as [c|] eqn:Hc.
  - rewrite <- Hbody. now apply (round_at s c).
  - exfalso. apply get_none_iff in Hc.
    unfold tokenize_body, bind in Hbody.
    rewrite peek_get, Nat.add_0_r in Hbody.
    rewrite (proj2 (get_none_iff src _) Hc) in Hbody. discriminate.
Qed.

(** ** Where scanning ends, and the lines of the tokens *)

Lemma met_unrecognized (s : state) (c : ascii) :
  reaches src s -> String.get (m_index s) src = Some c -> recognized c = false ->
  tokenize_body src s = Fail exit_failure /\ run_tokenize src = Fail exit_failure.
Proof.
  intros Hs Hc Hun.
  pose proof (fatal_round src s c (reaches_inv src s Hs) Hc Hun) as Hbody.
  split; [exact Hbody|].
  rewrite run_tokenize_loop, (loop_from_reached src s Hs).
  unfold tokenize_loop, fuel.
  rewrite while_unfold, loop_cond_get, Hc. cbn [has_value].
  now rewrite Hbody.
Qed.

Lemma recognized_round (s : state) (c : ascii) :
  reaches src s -> String.get (m_index s) src = Some c -> recognized c = true ->
  exists s', tokenize_body src s = Ok (tt, s') /\ reaches src s' /\
             m_index s < m_index s' <= String.length src.
Proof.
  intros Hs Hc Hrec.
  pose proof (get_some_lt _ _ _ Hc) as Hlt.
  destruct (body_keeps src s (reaches_inv src s Hs) Hlt)
    as [(s' & Hb & (Hi & _) & Hadv & _) | Hb].
  - exists s'. split; [assumption|]. split; [|lia].
    eapply reaches_round; eauto.
  - exfalso. pose proof (round_at s c Hs Hc) as Hr. rewrite Hb in Hr.
    destruct (round_fail s _ Hr) as (_ & c' & Hc' & Hun). congruence.
Qed.

(** C9 (amended): every character read during tokenization is inside the
    source string.  At the top of every round the cursor is at most the
    length of the text; a round started on a recognized character reads
    inside the text and ends with the cursor further on, still at most the
    length; a round started on an unrecognized character stops the run by
    [exit(EXIT_FAILURE)], with the cursor on that character; when the
    cursor is at the end of the text the loop ends there and the tokens
    are returned.  So the range error of [std::string::at] is never
    raised, and scanning ends either with the cursor exactly at the end
    of the text or by the fatal exit at an unrecognized character short
    of the end. *)
Theorem reads_stay_in_bounds (s : state) :
  reaches src s ->
  m_index s <= String.length src /\
  (forall c, String.get (m_index s) src = Some c ->
     (recognized c = true ->
        exists s', tokenize_body src s = Ok (tt, s') /\ reaches src s' /\
                   m_index s < m_index s' <= String.length src) /\
     (recognized c = false ->
        tokenize_body src s = Fail exit_failure /\
        run_tokenize src = Fail exit_failure)) /\
  (m_index s = String.length src ->
     tokenize_loop src entry = Ok (tt, s) /\ run_tokenize src = Ok (tokens s)) /\
  ((exists s', tokenize_loop src entry = Ok (tt, s') /\ reaches src s' /\
               m_index s' = String.length src /\
               run_tokenize src = Ok (tokens s')) \/
   (run_tokenize src = Fail exit_failure /\
    exists s1 c, reaches src s1 /\ m_index s1 < String.length src /\
                 String.get (m_index s1) src = Some c /\ recognized c = false)).
Proof.
  intros Hs. split; [now apply index_le_length|].
  split; [|split; [now apply reached_end|]].
  - intros c Hc. split; intros Hrec.
    + now apply (recognized_round s c).
    + now apply (met_unrecognized s c).
  - destruct (loop_total src entry (entry_inv src))
      as [(s' & Hrun & _) | Hrun].
    + left. exists s'. destruct (loop_ends_reached s' Hrun) as [Hs' Hend].
      split; [assumption|]. split; [assumption|]. split; [assumption|].
      now rewrite run_tokenize_loop, Hrun.
    + right. assert (Hfail : run_tokenize src = Fail exit_failure)
        by now rewrite run_tokenize_loop, Hrun.
      split; [exact Hfail|].
      destruct (failure_has_a_cause Hfail) as (s1 & c & Hs1 & Hc & Hun).
      exists s1, c. split; [assumption|].
      split; [eapply get_some_lt; eauto | auto].
Qed.

(** C10 (amended): when tokenization succeeds, a token carries text
    exactly when it is an identifier or an integer literal, the text
    being then non-empty; and where the text has fewer than [2^31 - 1]
    newlines, the line numbers of the tokens never go down along the
    sequence, and each of them, the first included, is at least 1 (and in
    the range of [int]). *)
Theorem tokens_well_formed (ts : list Token) :
  run_tokenize src = Ok ts ->
  Forall payload_ok ts /\
  ((Z.of_nat (count_newlines src (String.length src)) < 2 ^ 31 - 1)%Z ->
   lines_sorted ts /\
   match ts with [] => True | t :: _ => (1 <= line t)%Z end /\
   Forall (fun t => (1 <= line t < 2 ^ 31)%Z) ts).
Proof.
  intros Hrun. destruct (result_reached ts Hrun) as (s & Hs & _ & <-).
  split; [apply (reaches_inv src s Hs)|].
  intros Hbound.
  destruct (lines_kept s Hbound Hs) as (_ & Hsorted & Hall).
  pose proof (line_count_in_int_range src s Hs) as Hrange.
  split; [assumption|]. split.
  - destruct (tokens s) as [|t ts']; [exact Logic.I|].
    inversion Hall; subst. lia.
  - eapply Forall_impl; [exact Hall|]. simpl. intros; lia.
Qed.

(** *** A text of many lines *)

Lemma blank_lines_get_lt (n : nat) (rest : string) (k : nat) :
  k < n -> String.get k (blank_lines n rest) = Some newline.
Proof.
  revert k. induction n as [|n IH]; intros k Hk; [lia|].
  destruct k as [|k]; [reflexivity|]. simpl. apply IH. lia.
Qed.

Lemma blank_lines_get_ge (n : nat) (rest : string) (k : nat) :
  String.get (n + k) (blank_lines n rest) = String.get k rest.
Proof. induction n as [|n IH]; [reflexivity | exact IH]. Qed.

Lemma blank_lines_length (n : nat) (rest : string) :
  String.length (blank_lines n rest) = n + String.length rest.
Proof. induction n as [|n IH]; [reflexivity | simpl; now rewrite IH]. Qed.

End Rounds.

(** After [k] of the [n] newlines in front, the scanner has counted them,
    on an [int]. *)
Lemma blank_lines_reached (n : nat) (rest : string) (k : nat) :
  k <= n ->
  reaches (blank_lines n rest)
    (mkState k [] EmptyString (int_wrap (1 + Z.of_nat k))).
Proof.
  induction k as [|k IH]; intros Hk.
  - replace (int_wrap (1 + Z.of_nat 0)) with 1%Z by reflexivity.
    apply reaches_entry.
  - specialize (IH ltac:(lia)).
    eapply reaches_round; [exact IH | |].
    + cbn [m_index]. rewrite blank_lines_length. lia.
    + rewrite (newline_round _ _ IH) by (apply blank_lines_get_lt; cbn [m_index]; lia).
      cbn [m_index tokens line_count]. rewrite int_wrap_succ.
      do 3 f_equal. f_equal. lia.
Qed.

Lemma blank_lines_then_semi (n : nat) :
  run_tokenize (blank_lines n ";") =
  Ok [mkToken TokenType.semi (int_wrap (1 + Z.of_nat n)) None].
Proof.
  pose proof (blank_lines_reached n ";" n (Nat.le_refl n)) as Hs.
  assert (Hc : String.get n (blank_lines n ";") = Some ";"%char).
  { rewrite <- (Nat.add_0_r n) at 1. now rewrite blank_lines_get_ge. }
  assert (Hbody := punctuation_round _ _ ";"%char TokenType.semi Hs Hc).
  cbn [m_index tokens line_count] in Hbody.
  specialize (Hbody ltac:(unfold punctuation; simpl; tauto)
                    ltac:(intros [H _]; cbn [m_index] in H; congruence)).
  assert (Hs' : reaches (blank_lines n ";")
                  (mkState (S n) ([] ++ [mkToken TokenType.semi (int_wrap (1 + Z.of_nat n)) None])
                     EmptyString (int_wrap (1 + Z.of_nat n)))).
  { eapply reaches_round; [exact Hs | | exact Hbody].
    cbn [m_index]. rewrite blank_lines_length. simpl. lia. }
  apply (reached_end _ _ Hs'). cbn [m_index].
  rewrite blank_lines_length. simpl. lia.
Qed.


(** ** Labels *)

(** The labels tell the kinds apart: no label is empty and no two kinds
    share one. *)
Theorem to_string_tells_kinds_apart (a b : TokenType) :
  to_string a <> EmptyString /\ (to_string a = to_string b -> a = b).
Proof.
  split; [now destruct a|].
  destruct a, b; simpl; intros H; first [reflexivity | discriminate H].
Qed.

(** The label of a keyword or of a single-character lexeme is its text
    between two backquotes, and that text, tokenized, is the one token of
    the kind. *)
Theorem label_shows_the_lexeme (ty : TokenType) :
  ty <> TokenType.int_lit -> ty <> TokenType.ident ->
  to_string ty = String "`" (inside (to_string ty) +:+ "`") /\
  run_tokenize (inside (to_string ty)) = Ok [mkToken ty 1 None].
Proof.
  intros H1 H2. destruct ty; try congruence; split; vm_compute; reflexivity.
Qed.

(** ** Instances *)

(** C9 (as stated) fails where it says that scanning ends exactly when the
    cursor reaches the end of the text: on [a $] the scanner stops at the
    [$], with the cursor at 2 of 3. *)
Lemma scanning_can_stop_short_of_the_end :
  ~ (forall (src : string) (s : state),
       reaches src s ->
       (forall s', tokenize_body src s <> Ok (tt, s')) ->
       m_index s = String.length src).
Proof.
  intros H.
  specialize (H "a $" (mkState 2 [mkToken TokenType.ident 1 (Some "a")] EmptyString 1)).
  assert (Hs : reaches "a $"
                 (mkState 2 [mkToken TokenType.ident 1 (Some "a")] EmptyString 1)).
  { eapply reaches_round with (s := mkState 1 _ EmptyString 1);
      [eapply reaches_round with (s := entry); [apply reaches_entry | simpl; lia |]
      | simpl; lia |]; vm_compute; reflexivity. }
  specialize (H Hs). simpl in H.
  assert (E : 2 = 3); [|discriminate E].
  apply H. intros s' Hbody. vm_compute in Hbody. discriminate Hbody.
Qed.

Lemma reads_stay_in_bounds_witness :
  exists s',
    tokenize_body "a;" (mkState 1 [mkToken TokenType.ident 1 (Some "a")] EmptyString 1) =
      Ok (tt, s') /\
    reaches "a;" s' /\
    1 < m_index s' <= String.length "a;".
Proof.
  assert (Hs : reaches "a;"
                 (mkState 1 [mkToken TokenType.ident 1 (Some "a")] EmptyString 1)).
  { eapply reaches_round with (s := entry);
      [apply reaches_entry | simpl; lia | vm_compute; reflexivity]. }
  destruct (reads_stay_in_bounds "a;" _ Hs) as (_ & Hround & _).
  destruct (Hround ";"%char eq_refl) as [Hok _].
  exact (Hok eq_refl).
Defined.

Lemma first_line_below_one (n : nat) :
  Z.of_nat n = (2 ^ 31 - 1)%Z ->
  ~ (forall (src : string) (ts : list Token),
       run_tokenize src = Ok ts ->
       lines_sorted ts /\
       match ts with [] => True | t :: _ => (1 <= line t)%Z end /\
       Forall payload_ok ts).
Proof.
  intros Hn H.
  destruct (H _ _ (blank_lines_then_semi n)) as (_ & H1 & _).
  cbn [line] in H1. rewrite Hn in H1.
  replace (int_wrap (1 + (2 ^ 31 - 1))) with (- 2 ^ 31)%Z in H1
    by (vm_compute; reflexivity).
  lia.
Qed.

(** C10 (as stated) fails on a text of [2^31 - 1] newlines and a
    semicolon: the line counter, an [int], has gone round when the token
    is built, and the token is given line [-2^31]. *)
Lemma line_counter_goes_round :
  ~ (forall (src : string) (ts : list Token),
       run_tokenize src = Ok ts ->
       lines_sorted ts /\
       match ts with [] => True | t :: _ => (1 <= line t)%Z end /\
       Forall payload_ok ts).
Proof.
  apply (first_line_below_one (Z.to_nat (2 ^ 31 - 1))).
  apply Z2Nat.id. discriminate.
Qed.

Lemma tokens_well_formed_witness :
  exists ts,
    run_tokenize (String "a" (String newline "b")) = Ok ts /\
    Forall payload_ok ts /\
    lines_sorted ts /\
    match ts with [] => True | t :: _ => (1 <= line t)%Z end /\
    Forall (fun t => (1 <= line t < 2 ^ 31)%Z) ts.
Proof.
  eexists. split; [vm_compute; reflexivity|].
  destruct (tokens_well_formed (String "a" (String newline "b")) _
              ltac:(vm_compute; reflexivity)) as [Hp Hl].
  split; [exact Hp|]. apply Hl. vm_compute. reflexivity.
Defined.

Lemma fails_only_on_unrecognized_witness :
  exists ts, run_tokenize "a b" = Ok ts.
Proof.
  apply (proj2 (fails_only_on_unrecognized "a b")).
  intros k c H.
  do 3 (destruct k as [|k]; [injection H as <-; reflexivity|]). discriminate H.
Defined.

Lemma tokens_at_most_characters_witness :
  exists ts, run_tokenize "a+b" = Ok ts /\ length ts <= String.length "a+b".
Proof.
  eexists. split; [vm_compute; reflexivity|].
  apply (tokens_at_most_characters "a+b"). vm_compute. reflexivity.
Defined.

Lemma token_texts_witness :
  exists ts, run_tokenize "x1 = 42" = Ok ts /\ Forall text_ok ts.
Proof.
  eexists. split; [vm_compute; reflexivity|].
  apply (token_texts "x1 = 42"). vm_compute. reflexivity.
Defined.

Lemma blank_text_has_no_tokens_witness :
  run_tokenize (String " " (String newline EmptyString)) = Ok [].
Proof.
  apply blank_text_has_no_tokens. intros k c H.
  do 2 (destruct k as [|k]; [injection H as <-; reflexivity|]). discriminate H.
Defined.

Lemma number_is_taken_whole_witness :
  tokenize_body "12a" entry =
  Ok (tt, mkState 2 [mkToken TokenType.int_lit 1 (Some "12")] EmptyString 1).
Proof.
  apply (number_is_taken_whole "12a" entry "12").
  - apply reaches_entry.
  - discriminate.
  - intros k Hk. destruct k as [|[|k]]; [reflexivity | reflexivity | simpl in Hk; lia].
  - intros k d. destruct k as [|[|k]]; simpl; intros [= <-]; reflexivity.
  - simpl. intros d [= <-]. reflexivity.
Defined.

Lemma punctuation_gives_its_token_witness :
  tokenize_body "/ 2" entry =
  Ok (tt, mkState 1 [mkToken TokenType.fslash 1 None] EmptyString 1).
Proof.
  apply (punctuation_gives_its_token "/ 2" entry "/"%char TokenType.fslash).
  - apply reaches_entry.
  - reflexivity.
  - simpl. tauto.
  - intros [_ [H|H]]; discriminate H.
Defined.

Lemma line_comment_stops_at_newline_witness :
  exists j,
    tokenize_body ("//x" +:+ String newline "y") entry =
    Ok (tt, mkState j [] EmptyString 1).
Proof.
  destruct (line_comment_stops_at_newline ("//x" +:+ String newline "y") entry)
    as (j & _ & _ & H & _); [apply reaches_entry | reflexivity | reflexivity|].
  exists j. exact H.
Defined.

Lemma block_comment_ends_after_closing_witness :
  tokenize_body "/*x*/y" entry = Ok (tt, mkState 5 [] EmptyString 1).
Proof.
  apply (block_comment_ends_after_closing "/*x*/y" entry 3).
  - apply reaches_entry.
  - reflexivity.
  - reflexivity.
  - simpl. lia.
  - split; reflexivity.
  - simpl. intros k Hk [H _]. assert (k = 2) by lia. subst k. discriminate H.
Defined.

Lemma two_lines_reached :
  reaches (String "a" (String newline "b"))
    (mkState 2 [mkToken TokenType.ident 1 (Some "a")] EmptyString 2).
Proof.
  eapply reaches_round with (s := mkState 1 _ EmptyString 1);
    [eapply reaches_round with (s := entry); [apply reaches_entry | simpl; lia |]
    | simpl; lia |]; vm_compute; reflexivity.
Qed.

Lemma lines_at_most_newlines_witness :
  (line_count (mkState 2 [mkToken TokenType.ident 1 (Some "a")] EmptyString 2)
   <= 1 + Z.of_nat (count_newlines (String "a" (String newline "b")) 2))%Z /\
  Forall (fun t => (line t <= 1 + Z.of_nat (count_newlines
                                             (String "a" (String newline "b")) 3))%Z)
    [mkToken TokenType.ident 1 (Some "a")].
Proof.
  exact (lines_at_most_newlines (String "a" (String newline "b")) _ two_lines_reached).
Defined.

Lemma lines_exact_without_block_comments_witness :
  line_count (mkState 2 [mkToken TokenType.ident 1 (Some "a")] EmptyString 2) =
    (1 + Z.of_nat (count_newlines (String "a" (String newline "b")) 2))%Z /\
  line (mkToken TokenType.ident 2 (Some "b")) =
    (1 + Z.of_nat (count_newlines (String "a" (String newline "b")) 2))%Z.
Proof.
  destruct (lines_exact_without_block_comments (String "a" (String newline "b"))
              (mkState 2 [mkToken TokenType.ident 1 (Some "a")] EmptyString 2))
    as [Hcount Htok].
  - vm_compute. reflexivity.
  - intros k [H _].
    do 3 (destruct k as [|k]; [discriminate H|]). discriminate H.
  - exact two_lines_reached.
  - split; [exact Hcount|].
    apply (Htok (mkState 3 [mkToken TokenType.ident 1 (Some "a");
                            mkToken TokenType.ident 2 (Some "b")] EmptyString 2)).
    + vm_compute. reflexivity.
    + reflexivity.
Defined.

Lemma to_string_tells_kinds_apart_witness :
  TokenType.plus = TokenType.plus.
Proof.
  exact (proj2 (to_string_tells_kinds_apart TokenType.plus TokenType.plus) eq_refl).
Defined.

Lemma label_shows_the_lexeme_witness :
  run_tokenize (inside (to_string TokenType.elif)) = Ok [mkToken TokenType.elif 1 None].
Proof.
  apply (label_shows_the_lexeme TokenType.elif); discriminate.
Defined.

End TokenizerProofs.

(** * Properties of the arena *)

Module ArenaProofs.
Import Arena.

(** ** Alignment arithmetic *)

Lemma pow2_pos (k : Z) : 0 <= k -> 0 < 2 ^ k.
Proof. intros. apply Z.pow_pos_nonneg; lia. Qed.

Lemma pow2_le_word (k : Z) : 0 <= k < 64 -> 2 * 2 ^ k <= 2 ^ 64.
Proof.
  intros Hk. replace (2 * 2 ^ k) with (2 ^ (k + 1)) by (rewrite Z.pow_add_r; lia).
  apply Z.pow_le_mono_r; lia.
Qed.

Lemma pow2_divides_word (k : Z) : 0 <= k < 64 -> 2 ^ 64 = 2 ^ (64 - k) * 2 ^ k.
Proof.
  intros Hk. rewrite <- Z.pow_add_r by lia. f_equal. lia.
Qed.

(** The mask [-alignment], as a 64-bit word. *)
Lemma wrap_mask (k : Z) :
  0 <= k < 64 -> wrap (- 2 ^ k) = Z.shiftl (Z.ones (64 - k)) k.
Proof.
  intros Hk. unfold wrap.
  rewrite Z.ones_equiv, Z.shiftl_mul_pow2, <- Z.sub_1_r, Z.mul_sub_distr_r by lia.
  rewrite <- (pow2_divides_word k Hk).
  pose proof (pow2_pos k ltac:(lia)). pose proof (pow2_le_word k Hk).
  symmetry. apply Z.mod_unique with (q := -1); lia.
Qed.

(** Masking with [-alignment] rounds down to a multiple of the alignment. *)
Lemma land_mask (x k : Z) :
  0 <= x < 2 ^ 64 -> 0 <= k < 64 ->
  Z.land x (wrap (- 2 ^ k)) = x - x mod 2 ^ k.
Proof.
  intros Hx Hk. rewrite (wrap_mask k Hk).
  pose proof (pow2_pos k ltac:(lia)) as Hpos.
  replace (x - x mod 2 ^ k) with (Z.shiftl (Z.shiftr x k) k).
  2:{ rewrite Z.shiftl_mul_pow2, Z.shiftr_div_pow2 by lia.
      pose proof (Z.div_mod x (2 ^ k) ltac:(lia)). lia. }
  apply Z.bits_inj'. intros n Hn.
  rewrite Z.land_spec, !Z.shiftl_spec by lia.
  destruct (Z.lt_ge_cases n k) as [Hlt|Hge].
  - rewrite !(Z.testbit_neg_r _ (n - k)) by lia. apply andb_false_r.
  - rewrite Z.shiftr_spec by lia. replace (n - k + k) with n by lia.
    destruct (Z.lt_ge_cases n 64) as [Hlo|Hhi].
    + rewrite Z.ones_spec_low by lia. apply andb_true_r.
    + rewrite Z.ones_spec_high by lia. rewrite andb_false_r.
      rewrite <- (Z.mod_small x (2 ^ 64)) by lia.
      symmetry. apply Z.mod_pow2_bits_high. lia.
Qed.

(** The padding [std::align] inserts in front of [ptr]. *)
Lemma align_padding (ptr k : Z) :
  0 <= ptr < 2 ^ 64 -> 0 <= k < 64 ->
  wrap (Z.land (wrap (ptr - 1 + 2 ^ k)) (wrap (- 2 ^ k)) - ptr) = (- ptr) mod 2 ^ k.
Proof.
  intros Hp Hk.
  pose proof (pow2_pos k ltac:(lia)) as Hpos.
  pose proof (pow2_le_word k Hk) as Hle.
  assert (Hw : 0 <= wrap (ptr - 1 + 2 ^ k) < 2 ^ 64)
    by (apply Z.mod_pos_bound; lia).
  rewrite (land_mask _ k Hw Hk).
  set (al := 2 ^ k) in *.
  assert (Hmod : wrap (ptr - 1 + al) mod al = (ptr - 1) mod al).
  { unfold wrap. rewrite Z.mod_mod_divide.
    - replace (ptr - 1 + al) with (ptr - 1 + 1 * al) by lia.
      apply Z.mod_add. lia.
    - exists (2 ^ (64 - k)). apply (pow2_divides_word k Hk). }
  rewrite Hmod.
  pose proof (Z.mod_pos_bound (ptr - 1) al Hpos) as Hr.
  pose proof (Z.div_mod (ptr - 1) al ltac:(lia)) as Hdm.
  assert (Hpad : (- ptr) mod al = al - 1 - (ptr - 1) mod al).
  { symmetry. apply Z.mod_unique with (q := - ((ptr - 1) / al) - 1); lia. }
  rewrite Hpad. unfold wrap at 1.
  pose proof (Z.div_mod (ptr - 1 + al) (2 ^ 64) ltac:(lia)) as Hdw.
  fold (wrap (ptr - 1 + al)) in Hdw.
  symmetry. apply Z.mod_unique with (q := - ((ptr - 1 + al) / 2 ^ 64)); lia.
Qed.

(** [std::align] returns the first address at or after [ptr] that has
    the alignment, when [size] bytes fit behind it in the [space] bytes
    from [ptr] on, and the null pointer otherwise. *)
Lemma std_align_first (k size ptr space : Z) :
  0 <= k < 64 -> 1 <= size -> 0 <= ptr -> 0 <= space -> ptr + space < 2 ^ 64 ->
  std_align (2 ^ k) size ptr space =
  let pad := (- ptr) mod 2 ^ k in
  if ptr + pad + size <=? ptr + space
  then (ptr + pad, ptr + pad, space - pad)
  else (nullptr, ptr, space).
Proof.
  intros Hk Hsz Hp Hsp Hend. cbv zeta. unfold std_align.
  pose proof (pow2_pos k ltac:(lia)) as Hpos.
  pose proof (Z.mod_pos_bound (- ptr) (2 ^ k) Hpos) as Hpad.
  destruct (Z.ltb_spec space size) as [Hlt|Hge].
  - destruct (Z.leb_spec (ptr + (- ptr) mod 2 ^ k + size) (ptr + space)); [lia | reflexivity].
  - rewrite (align_padding ptr k) by lia.
    set (aligned := Z.land (wrap (ptr - 1 + 2 ^ k)) (wrap (- 2 ^ k))).
    pose proof (align_padding ptr k ltac:(lia) Hk) as Hdiff. fold aligned in Hdiff.
    set (pad := (- ptr) mod 2 ^ k) in *.
    rewrite Z.gtb_ltb.
    destruct (Z.ltb_spec (space - size) pad) as [Hno|Hyes];
      destruct (Z.leb_spec (ptr + pad + size) (ptr + space)); try lia; [reflexivity|].
    assert (Ha : aligned = ptr + pad).
    { assert (0 <= aligned < 2 ^ 64).
      { unfold aligned.
        assert (Hw : 0 <= wrap (ptr - 1 + 2 ^ k) < 2 ^ 64) by (apply Z.mod_pos_bound; lia).
        rewrite (land_mask _ k Hw Hk).
        pose proof (Z.mod_pos_bound (wrap (ptr - 1 + 2 ^ k)) (2 ^ k) Hpos).
        pose proof (Z.mod_le (wrap (ptr - 1 + 2 ^ k)) (2 ^ k) ltac:(lia) Hpos). lia. }
      unfold wrap in Hdiff.
      pose proof (Z.div_mod (aligned - ptr) (2 ^ 64) ltac:(lia)). lia. }
    now rewrite Ha.
Qed.

(** The least aligned address at or after the cursor decides whether a
    type fits. *)
Lemma fits_first (T : type_info) (a : ArenaAllocator) :
  0 < align_of T ->
  fits T a <->
  m_offset a + (- m_offset a) mod align_of T + size_of T <= m_buffer a + m_size a.
Proof.
  intros Hal. set (al := align_of T) in *.
  pose proof (Z.mod_pos_bound (- m_offset a) al Hal) as Hpad.
  pose proof (Z.div_mod (- m_offset a) al ltac:(lia)) as Hdm.
  split.
  - intros (addr & Hge & Hmod & Hend). fold al in Hmod.
    pose proof (Z.div_mod addr al ltac:(lia)) as Hda. rewrite Hmod in Hda.
    (* addr and the first aligned address are multiples of [al], less than
       [al] apart *)
    assert (addr / al + (- m_offset a) / al >= 0) by nia.
    nia.
  - intros H. exists (m_offset a + (- m_offset a) mod al). repeat split; try lia.
    replace (m_offset a + (- m_offset a) mod al)
      with (0 + (- ((- m_offset a) / al)) * al) by lia.
    now rewrite Z.mod_add by lia.
Qed.

(** What [alloc] does on a well-shaped arena. *)
Lemma alloc_first (T : type_info) (a : ArenaAllocator) :
  arena_ok a -> type_ok T ->
  alloc T a =
  let p := m_offset a + (- m_offset a) mod align_of T in
  if p + size_of T <=? m_buffer a + m_size a
  then (returned p, mkArena (m_size a) (m_buffer a) (p + size_of T))
  else (bad_alloc, a).
Proof.
  intros (Hsz & Hbuf & Hoff & Hnull) (Hsize & k & Hk & Hal). cbv zeta.
  unfold alloc. rewrite Hal.
  assert (Hrem : wrap (m_size a - wrap (m_offset a - m_buffer a)) =
                 m_buffer a + m_size a - m_offset a).
  { unfold wrap. rewrite (Z.mod_small (m_offset a - m_buffer a)) by lia.
    rewrite Z.mod_small by lia. lia. }
  rewrite Hrem, std_align_first by lia. cbv zeta.
  pose proof (pow2_pos k ltac:(lia)) as Hpos.
  pose proof (Z.mod_pos_bound (- m_offset a) (2 ^ k) Hpos) as Hpad.
  replace (m_offset a + (m_buffer a + m_size a - m_offset a))
    with (m_buffer a + m_size a) by lia.
  destruct (Z.leb_spec (m_offset a + (- m_offset a) mod 2 ^ k + size_of T)
              (m_buffer a + m_size a)) as [Hfit|Hno].
  - destruct (Z.eqb_spec (m_offset a + (- m_offset a) mod 2 ^ k) nullptr) as [E|E];
      [|reflexivity].
    unfold nullptr in *. assert (m_buffer a = 0) by lia. lia.
  - reflexivity.
Qed.

(** ** One call *)

Lemma construct_ok (max_num_bytes p : Z) (h : free_store) :
  0 <= max_num_bytes -> 0 < p -> p + max_num_bytes < 2 ^ 64 ->
  arena_ok (fst (construct max_num_bytes p h)).
Proof. unfold arena_ok, construct, nullptr. simpl. lia. Qed.

(** A call on a well-shaped arena: it is granted exactly when the type
    fits; the address granted is aligned and at or after the cursor, and
    the cursor moves to the end of the range, inside the buffer; a call
    that is not granted leaves the arena as it was. *)
Lemma alloc_step (T : type_info) (a : ArenaAllocator) :
  arena_ok a -> type_ok T ->
  match alloc T a with
  | (returned p, a') =>
      fits T a /\ arena_ok a' /\
      m_buffer a' = m_buffer a /\ m_size a' = m_size a /\
      m_offset a <= p /\ p mod align_of T = 0 /\
      m_buffer a <= p /\ p < p + size_of T /\
      m_offset a' = p + size_of T /\ m_offset a' <= m_buffer a + m_size a
  | (bad_alloc, a') => ~ fits T a /\ a' = a
  end.
Proof.
  intros Hok HT. rewrite (alloc_first T a Hok HT). cbv zeta.
  destruct Hok as (Hsz & Hbuf & Hoff & Hnull).
  destruct HT as (Hsize & k & Hk & Hal).
  pose proof (pow2_pos k ltac:(lia)) as Hpos. rewrite <- Hal in Hpos.
  pose proof (Z.mod_pos_bound (- m_offset a) (align_of T) Hpos) as Hpad.
  pose proof (fits_first T a Hpos) as Hfits.
  destruct (Z.leb_spec (m_offset a + (- m_offset a) mod align_of T + size_of T)
              (m_buffer a + m_size a)) as [Hfit|Hno].
  - split; [tauto|]. unfold arena_ok, nullptr in *. simpl.
    repeat split; try lia.
    pose proof (Z.div_mod (- m_offset a) (align_of T) ltac:(lia)) as Hdm.
    replace (m_offset a + (- m_offset a) mod align_of T)
      with (0 + (- ((- m_offset a) / align_of T)) * align_of T) by lia.
    now rewrite Z.mod_add by lia.
  - split; [|reflexivity]. rewrite Hfits. lia.
Qed.

Section Calls.
Context {V : Type}.
Implicit Types (c : call V) (cs : list (call V)) (mem : gmap Z (V * Z)).

Lemma do_call_alloc c a mem :
  fst (do_call c a mem) = alloc (type_of c) a.
Proof.
  destruct c as [T|T v]; simpl; unfold emplace;
    destruct (alloc T a) as [[p|] a']; reflexivity.
Qed.

Lemma do_calls_cons c cs a mem :
  do_calls (c :: cs) a mem =
  let '(r, a', mem') := do_call c a mem in
  let '(rs, a'', mem'') := do_calls cs a' mem' in
  (r :: rs, a'', mem'').
Proof. reflexivity. Qed.

Lemma arena_after_cons c cs a mem :
  arena_after (c :: cs) a mem =
  arena_after cs (snd (fst (do_call c a mem))) (snd (do_call c a mem)).
Proof.
  unfold arena_after. rewrite do_calls_cons.
  destruct (do_call c a mem) as [[r a'] mem']. cbn [fst snd].
  destruct (do_calls cs a' mem') as [[rs a''] mem'']. reflexivity.
Qed.

Lemma do_call_step c a mem :
  arena_ok a -> type_ok (type_of c) ->
  match do_call c a mem with
  | (returned p, a', _) =>
      fits (type_of c) a /\ arena_ok a' /\
      m_buffer a' = m_buffer a /\ m_size a' = m_size a /\
      m_offset a <= p /\ p mod align_of (type_of c) = 0 /\
      m_buffer a <= p /\ p < p + size_of (type_of c) /\
      m_offset a' = p + size_of (type_of c) /\
      m_offset a' <= m_buffer a + m_size a
  | (bad_alloc, a', _) => ~ fits (type_of c) a /\ a' = a
  end.
Proof.
  intros Hok HT. pose proof (alloc_step _ a Hok HT) as H.
  rewrite <- (do_call_alloc c a mem) in H.
  destruct (do_call c a mem) as [[[p|] a'] mem']; simpl in H; exact H.
Qed.

(** The shape of the arena, its buffer and its size are kept by every
    sequence of calls, and the cursor does not go back. *)
Lemma do_calls_keep cs a mem :
  arena_ok a -> Forall (fun c => type_ok (type_of c)) cs ->
  arena_ok (arena_after cs a mem) /\
  m_buffer (arena_after cs a mem) = m_buffer a /\
  m_size (arena_after cs a mem) = m_size a /\
  m_offset a <= m_offset (arena_after cs a mem).
Proof.
  revert a mem. induction cs as [|c cs IH]; intros a mem Hok Hcs.
  - unfold arena_after. simpl.
    split; [assumption|]. split; [reflexivity|]. split; [reflexivity | lia].
  - inversion Hcs as [|? ? Hc Hcs']; subst.
    rewrite arena_after_cons.
    pose proof (do_call_step c a mem Hok Hc) as Hstep.
    destruct (do_call c a mem) as [[[p|] a'] mem']; simpl.
    + destruct Hstep as (_ & Hok' & Hb & Hs & Hp & _ & _ & Hlt & Ho & _).
      destruct (IH a' mem' Hok' Hcs') as (H1 & H2 & H3 & H4).
      split; [assumption|]. split; [congruence|]. split; [congruence | lia].
    + destruct Hstep as (_ & ->). now apply IH.
Qed.

(** C8: along every sequence of [alloc] and [emplace] calls the cursor
    never moves backward; after a call that is granted the cursor is the
    granted address (the old cursor plus the padding) plus the size of
    the type, and it is not past the end of the buffer; a call that
    fails leaves the cursor where it was. *)
Theorem cursor_never_goes_back a mem mem1 cs c :
  arena_ok a ->
  Forall (fun c => type_ok (type_of c)) cs ->
  type_ok (type_of c) ->
  let a1 := arena_after cs a mem in
  m_offset a <= m_offset a1 /\
  match do_call c a1 mem1 with
  | (returned p, a2, _) =>
      m_offset a1 <= p /\
      m_offset a2 = p + size_of (type_of c) /\
      m_offset a1 < m_offset a2 /\
      m_offset a2 <= m_buffer a2 + m_size a2 /\
      m_buffer a2 = m_buffer a /\ m_size a2 = m_size a
  | (bad_alloc, a2, _) => a2 = a1
  end.
Proof.
  intros Hok Hcs Hc a1.
  destruct (do_calls_keep cs a mem Hok Hcs) as (Hok1 & Hb1 & Hs1 & Ho1).
  fold a1 in Hok1, Hb1, Hs1, Ho1. split; [assumption|].
  pose proof (do_call_step c a1 mem1 Hok1 Hc) as Hstep.
  destruct (do_call c a1 mem1) as [[[p|] a2] mem2].
  - destruct Hstep as (_ & _ & Hb & Hs & Hp & _ & _ & Hlt & Ho & Hend).
    repeat split; try lia; congruence.
  - apply Hstep.
Qed.

(** C3: in every sequence of typed requests on an arena, a request is
    granted exactly when some address at or after the cursor of that
    moment has the alignment of the type and leaves room for its size
    before the end of the buffer, and fails with [std::bad_alloc]
    exactly when there is none (so the first request without such an
    address fails, and none before it does); the ranges granted lie in
    the buffer, in increasing order, none empty and none reaching into
    the next. *)
Theorem exhaustion_at_the_overflowing_request a mem cs :
  arena_ok a ->
  Forall (fun c => type_ok (type_of c)) cs ->
  let rs := fst (fst (do_calls cs a mem)) in
  length rs = length cs /\
  (forall i c, cs !! i = Some c ->
     ((exists p, rs !! i = Some (returned p)) <->
        fits (type_of c) (arena_after (take i cs) a mem)) /\
     (rs !! i = Some bad_alloc <->
        ~ fits (type_of c) (arena_after (take i cs) a mem))) /\
  ranges_apart (m_offset a) (granted cs rs) /\
  Forall (fun r => m_buffer a <= fst r /\ snd r <= m_buffer a + m_size a)
    (granted cs rs).
Proof.
  revert a mem. induction cs as [|c cs IH]; intros a mem Hok Hcs; cbv zeta.
  - simpl. split; [reflexivity|].
    split; [intros i c Hc; now rewrite lookup_nil in Hc|].
    split; [exact Logic.I | constructor].
  - inversion Hcs as [|? ? Hc Hcs']; subst.
    rewrite do_calls_cons.
    pose proof (do_call_step c a mem Hok Hc) as Hstep.
    assert (Hafter : forall i, arena_after (take (S i) (c :: cs)) a mem =
              arena_after (take i cs) (snd (fst (do_call c a mem)))
                (snd (do_call c a mem))).
    { intros i. simpl. apply arena_after_cons. }
    destruct (do_call c a mem) as [[r a'] mem'] eqn:Ecall.
    assert (Hok' : arena_ok a').
    { destruct r; [apply Hstep | destruct Hstep as [_ ->]; assumption]. }
    specialize (IH a' mem' Hok' Hcs'). cbv zeta in IH.
    destruct (do_calls cs a' mem') as [[rs a''] mem''] eqn:Ecalls.
    cbn [fst snd] in *.
    destruct IH as (Hlen & Hidx & Hapart & Hin).
    split; [simpl; congruence|]. split; [|split].
    + intros [|i] c1 Hc1.
      * simpl in Hc1. injection Hc1 as <-.
        change (arena_after (take 0 (c :: cs)) a mem) with a. simpl.
        destruct r as [p|].
        -- destruct Hstep as (Hfits & _).
           split; split; eauto; [discriminate | tauto].
        -- destruct Hstep as (Hno & _).
           split; split; auto; [intros [p [=]] | tauto].
      * rewrite Hafter. simpl in Hc1 |- *. now apply Hidx.
    + destruct r as [p|]; simpl.
      * destruct Hstep as (_ & _ & _ & _ & Hp & _ & _ & Hlt & Ho & _).
        rewrite Ho in Hapart. auto.
      * destruct Hstep as (_ & ->). assumption.
    + destruct r as [p|]; simpl.
      * destruct Hstep as (_ & _ & Hb & Hs & Hp & _ & Hbp & Hlt & Ho & Hend).
        constructor; [simpl; lia|].
        rewrite Hb, Hs in Hin. assumption.
      * destruct Hstep as (_ & ->). assumption.
Qed.

End Calls.

(** ** Moves *)

(** C2 (amended): a move construction hands the buffer, the size and the
    cursor to the new arena and leaves the old one with a null buffer, a
    null cursor and size zero, so that destroying the old one changes
    nothing.  A move assignment exchanges the three members of the two
    arenas: the new owner receives the buffer, the size and the cursor of
    the source, and the source is left with what the destination had;
    destroying it afterwards gives back the buffer the destination had
    (nothing when that was null) and leaves the buffer of the new owner
    live. *)
Theorem ownership_transfer (this other : ArenaAllocator) (h : free_store) :
  (let '(new, old) := move_construct other in
   new = other /\ old = mkArena 0 nullptr nullptr /\ destroy old h = Some h) /\
  (let '(new, old) := move_assign this other in
   new = other /\ old = this /\
   (m_buffer this = nullptr -> destroy old h = Some h) /\
   (m_buffer this <> nullptr -> m_buffer this ∈ h ->
      destroy old h = Some (h ∖ {[m_buffer this]})) /\
   (m_buffer other ∈ h -> m_buffer this <> m_buffer other ->
      forall h', destroy old h = Some h' -> m_buffer new ∈ h')).
Proof.
  destruct this as [s1 b1 o1], other as [s2 b2 o2].
  unfold move_construct, move_assign, exchange, swap, destroy. simpl.
  split; [auto|].
  split; [reflexivity|]. split; [reflexivity|].
  destruct (Z.eqb_spec b1 nullptr) as [E|E].
  - split; [reflexivity|]. split; [tauto|].
    intros Hin _ h' [= <-]. assumption.
  - split; [tauto|]. split.
    + intros _ Hin. destruct (decide (b1 ∈ h)); [reflexivity | contradiction].
    + intros Hin Hne h'. destruct (decide (b1 ∈ h)); [|discriminate].
      intros [= <-]. set_solver.
Qed.

(** C2 (as stated) fails for move assignment: the old owner is left with
    the buffer and the size the destination had. *)
Lemma move_assign_leaves_the_other_buffer :
  ~ (forall this other : ArenaAllocator,
       m_buffer (snd (move_assign this other)) = nullptr /\
       m_size (snd (move_assign this other)) = 0).
Proof.
  intros H.
  destruct (H (mkArena 8 4096 4096) (mkArena 16 8192 8192)) as [H1 _].
  vm_compute in H1. discriminate H1.
Qed.

Lemma ownership_transfer_witness :
  destroy (snd (move_assign (mkArena 8 4096 4096) (mkArena 16 8192 8200)))
    {[4096; 8192]} = Some ({[4096; 8192]} ∖ {[4096]}).
Proof.
  pose proof (ownership_transfer (mkArena 8 4096 4096) (mkArena 16 8192 8200)
                {[4096; 8192]}) as [_ (_ & _ & _ & H & _)].
  apply H; [discriminate | set_solver].
Defined.

Lemma cursor_never_goes_back_witness :
  let a := fst (construct 24 4096 ∅) in
  let cs := [call_alloc (mkType 4 4); call_emplace (mkType 8 8) 7%nat] in
  m_offset a <= m_offset (arena_after cs a ∅) /\
  match do_call (call_alloc (V := nat) (mkType 16 8)) (arena_after cs a ∅) ∅ with
  | (returned p, a2, _) =>
      m_offset (arena_after cs a ∅) <= p /\
      m_offset a2 = p + 16 /\
      m_offset (arena_after cs a ∅) < m_offset a2 /\
      m_offset a2 <= m_buffer a2 + m_size a2 /\
      m_buffer a2 = m_buffer a /\ m_size a2 = m_size a
  | (bad_alloc, a2, _) => a2 = arena_after cs a ∅
  end.
Proof.
  intros a cs.
  apply (cursor_never_goes_back a ∅ ∅ cs (call_alloc (mkType 16 8))).
  - apply construct_ok; lia.
  - repeat constructor; simpl; try lia;
      [exists 2 | exists 3]; split; (lia || reflexivity).
  - split; [simpl; lia|]. exists 3. split; [lia | reflexivity].
Defined.

Lemma exhaustion_at_the_overflowing_request_witness :
  let a := fst (construct 24 4096 ∅) in
  let cs := [call_alloc (mkType 4 4); call_emplace (mkType 8 8) 7%nat;
             call_alloc (mkType 16 8)] in
  fst (fst (do_calls cs a ∅)) = [returned 4096; returned 4104; bad_alloc] /\
  ranges_apart (m_offset a) (granted cs (fst (fst (do_calls cs a ∅)))).
Proof.
  intros a cs. split; [vm_compute; reflexivity|].
  apply (exhaustion_at_the_overflowing_request a ∅ cs).
  - apply construct_ok; lia.
  - repeat constructor; simpl; try lia;
      [exists 2 | exists 3 | exists 3]; split; (lia || reflexivity).
Defined.

(** * Further properties of the arena *)

Lemma first_aligned_least (o al q : Z) :
  0 < al -> o <= q -> q mod al = 0 -> o + (- o) mod al <= q.
Proof.
  intros Hal Hq Hmod.
  pose proof (Z.mod_pos_bound (- o) al Hal) as Hpad.
  pose proof (Z.div_mod (- o) al ltac:(lia)) as Hdm.
  pose proof (Z.div_mod q al ltac:(lia)) as Hdq. rewrite Hmod in Hdq.
  assert (q / al + (- o) / al >= 0) by nia.
  nia.
Qed.

(** The address [alloc] grants is the first one at or after the cursor
    that has the alignment of the type: it is aligned, less than one
    alignment past the cursor, and no aligned address lies between the
    cursor and it. *)
Theorem granted_address_is_first_aligned (T : type_info) (a a' : ArenaAllocator) (p : Z) :
  arena_ok a -> type_ok T ->
  alloc T a = (returned p, a') ->
  p mod align_of T = 0 /\
  m_offset a <= p < m_offset a + align_of T /\
  (forall q, m_offset a <= q -> q mod align_of T = 0 -> p <= q) /\
  a' = mkArena (m_size a) (m_buffer a) (p + size_of T).
Proof.
  intros Hok HT Halloc.
  pose proof (alloc_step T a Hok HT) as Hstep. rewrite Halloc in Hstep.
  destruct Hstep as (_ & _ & _ & _ & Hp & Hmod & _).
  rewrite (alloc_first T a Hok HT) in Halloc. cbv zeta in Halloc.
  destruct HT as (_ & k & Hk & Hal).
  pose proof (pow2_pos k ltac:(lia)) as Hpos. rewrite <- Hal in Hpos.
  pose proof (Z.mod_pos_bound (- m_offset a) (align_of T) Hpos) as Hpad.
  destruct (_ <=? _); [|discriminate].
  injection Halloc as <- <-.
  split; [assumption|]. split; [lia|]. split; [|reflexivity].
  intros q Hq Hqm. now apply first_aligned_least.
Qed.

Section MoreCalls.
Context {V : Type}.
Implicit Types (c : call V) (cs : list (call V)) (mem : gmap Z (V * Z)).

Lemma alloc_null (T : type_info) :
  1 <= size_of T ->
  alloc T (mkArena 0 nullptr nullptr) = (bad_alloc, mkArena 0 nullptr nullptr).
Proof.
  intros Hsz. unfold alloc, std_align. cbn [m_size m_buffer m_offset].
  change (wrap (0 - wrap (nullptr - nullptr))) with 0.
  destruct (Z.ltb_spec 0 (size_of T)) as [_|H]; [reflexivity | lia].
Qed.

(** An arena that was moved from (by move construction) is well shaped
    and grants nothing: every call on it fails with [std::bad_alloc] and
    leaves it, and the memory, as they were. *)
Theorem moved_from_arena_grants_nothing (other : ArenaAllocator) cs mem :
  Forall (fun c => 1 <= size_of (type_of c)) cs ->
  let old := snd (move_construct other) in
  arena_ok old /\
  do_calls cs old mem = (map (fun _ => bad_alloc) cs, old, mem).
Proof.
  intros Hcs. cbv zeta.
  change (snd (move_construct other)) with (mkArena 0 nullptr nullptr).
  split; [unfold arena_ok, nullptr; simpl; lia|].
  induction cs as [|c cs IH]; [reflexivity|].
  inversion Hcs as [|? ? Hc Hcs']; subst.
  rewrite do_calls_cons.
  assert (Hcall : do_call c (mkArena 0 nullptr nullptr) mem =
                  (bad_alloc, mkArena 0 nullptr nullptr, mem)).
  { destruct c as [T|T v]; simpl in *; unfold emplace;
      now rewrite (alloc_null T Hc). }
  rewrite Hcall, (IH Hcs'). reflexivity.
Qed.

(** The ranges granted by a sequence of calls add up to no more than the
    cursor has moved, hence to no more than the bytes that were free, and
    to no more than the capacity. *)
Theorem granted_bytes_within_capacity a mem cs :
  arena_ok a ->
  Forall (fun c => type_ok (type_of c)) cs ->
  let rs := fst (fst (do_calls cs a mem)) in
  total_size (granted cs rs) <= m_offset (arena_after cs a mem) - m_offset a /\
  m_offset (arena_after cs a mem) - m_offset a <=
    m_buffer a + m_size a - m_offset a /\
  m_buffer a + m_size a - m_offset a <= m_size a.
Proof.
  intros Hok Hcs. cbv zeta.
  split; [|destruct (do_calls_keep cs a mem Hok Hcs) as ((_ & _ & Ho & _) & Hb & Hs & _);
           destruct Hok as (_ & Hbuf & _); split; lia].
  revert a mem Hok. induction cs as [|c cs IH]; intros a mem Hok.
  - unfold arena_after. simpl. lia.
  - inversion Hcs as [|? ? Hc Hcs']; subst.
    rewrite arena_after_cons, do_calls_cons.
    pose proof (do_call_step c a mem Hok Hc) as Hstep.
    destruct (do_call c a mem) as [[r a'] mem'].
    assert (Hok' : arena_ok a').
    { destruct r; [apply Hstep | destruct Hstep as [_ ->]; assumption]. }
    specialize (IH Hcs' a' mem' Hok'). unfold arena_after in *.
    cbn [fst snd] in *.
    destruct (do_calls cs a' mem') as [[rs a''] mem'']. cbn [fst snd] in *.
    destruct r as [p|]; simpl.
    + destruct Hstep as (_ & _ & _ & _ & Hp & _ & _ & _ & Ho & _). lia.
    + destruct Hstep as (_ & ->). exact IH.
Qed.

(** Allocations of one type pack like an array: when the cursor has the
    alignment of the type and the size of the type is a multiple of it,
    the [i]-th of [n] consecutive [alloc] calls is granted the address [i]
    sizes past the cursor, as long as [i + 1] objects fit before the end
    of the buffer, and fails from then on. *)
Theorem same_type_allocations_pack (T : type_info) a mem (n i : nat) :
  arena_ok a -> type_ok T ->
  m_offset a mod align_of T = 0 ->
  size_of T mod align_of T = 0 ->
  (i < n)%nat ->
  fst (fst (do_calls (replicate n (call_alloc T)) a mem)) !! i =
  Some (if m_offset a + (Z.of_nat i + 1) * size_of T <=? m_buffer a + m_size a
        then returned (m_offset a + Z.of_nat i * size_of T)
        else bad_alloc).
Proof.
  intros Hok HT Ho Hsz. revert a mem i Hok Ho.
  destruct (HT) as (Hsize & k & Hk & Hal).
  pose proof (pow2_pos k ltac:(lia)) as Hpos. rewrite <- Hal in Hpos.
  induction n as [|n IH]; intros a mem i Hok Ho Hi; [lia|].
  change (replicate (S n) (call_alloc T)) with (call_alloc (V := V) T :: replicate n (call_alloc T)).
  rewrite do_calls_cons. cbn [do_call].
  pose proof (alloc_step T a Hok HT) as Hstep.
  rewrite (alloc_first T a Hok HT) in *. cbv zeta in *.
  assert (Hpad : (- m_offset a) mod align_of T = 0).
  { apply Z.mod_divide; [lia|]. apply Z.divide_opp_r. apply Z.mod_divide; [lia | assumption]. }
  rewrite Hpad, Z.add_0_r in *.
  destruct (Z.leb_spec (m_offset a + size_of T) (m_buffer a + m_size a)) as [Hfit|Hno].
  - destruct Hstep as (_ & Hok' & Hb & Hs & _).
    set (a' := mkArena (m_size a) (m_buffer a) (m_offset a + size_of T)) in *.
    assert (Ho' : m_offset a' mod align_of T = 0).
    { unfold a'. cbn [m_offset]. apply Z.mod_divide; [lia|].
      apply Z.divide_add_r; apply Z.mod_divide; (lia || assumption). }
    specialize (IH a' mem). 
    destruct (do_calls (replicate n (call_alloc T)) a' mem) as [[rs a''] mem''].
    cbn [fst snd] in *.
    destruct i as [|i].
    + simpl. change (Z.of_nat 0) with 0.
      destruct (Z.leb_spec (m_offset a + (0 + 1) * size_of T)
                  (m_buffer a + m_size a)); [|lia].
      do 2 f_equal. lia.
    + simpl. rewrite (IH i Hok' Ho' ltac:(lia)). unfold a'. cbn [m_offset m_buffer m_size].
      rewrite Nat2Z.inj_succ.
      replace (m_offset a + size_of T + (Z.of_nat i + 1) * size_of T)
        with (m_offset a + (Z.succ (Z.of_nat i) + 1) * size_of T) by lia.
      replace (m_offset a + size_of T + Z.of_nat i * size_of T)
        with (m_offset a + Z.succ (Z.of_nat i) * size_of T) by lia.
      reflexivity.
  - specialize (IH a mem).
    destruct (do_calls (replicate n (call_alloc T)) a mem) as [[rs a''] mem''].
    cbn [fst snd] in *.
    destruct i as [|i].
    + simpl. change (Z.of_nat 0) with 0.
      destruct (Z.leb_spec (m_offset a + (0 + 1) * size_of T)
                  (m_buffer a + m_size a)); [lia | reflexivity].
    + simpl. rewrite (IH i Hok Ho ltac:(lia)).
      destruct (Z.leb_spec (m_offset a + (Z.of_nat i + 1) * size_of T)
                  (m_buffer a + m_size a)); [nia|].
      destruct (Z.leb_spec (m_offset a + (Z.of_nat (S i) + 1) * size_of T)
                  (m_buffer a + m_size a)); [nia | reflexivity].
Qed.

Lemma store_object_other (v : V) (p : Z) (n : nat) mem (q : Z) :
  q < p \/ p + Z.of_nat n <= q ->
  store_object v p n mem !! q = mem !! q.
Proof.
  induction n as [|n IH]; intros Hq; [reflexivity|].
  simpl. rewrite lookup_insert_ne by lia. apply IH. lia.
Qed.

Lemma store_object_byte (v : V) (p : Z) (n : nat) mem (k : Z) :
  0 <= k < Z.of_nat n ->
  store_object v p n mem !! (p + k) = Some (v, k).
Proof.
  induction n as [|n IH]; intros Hk; [lia|].
  simpl. destruct (Z.eq_dec k (Z.of_nat n)) as [->|Hne].
  - apply lookup_insert_eq.
  - rewrite lookup_insert_ne by lia. apply IH. lia.
Qed.

(** Calls write at or after the cursor only. *)
Lemma memory_below_cursor_kept cs a mem (q : Z) :
  arena_ok a ->
  Forall (fun c => type_ok (type_of c)) cs ->
  q < m_offset a ->
  snd (do_calls cs a mem) !! q = mem !! q.
Proof.
  revert a mem. induction cs as [|c cs IH]; intros a mem Hok Hcs Hq; [reflexivity|].
  inversion Hcs as [|? ? Hc Hcs']; subst.
  rewrite do_calls_cons.
  pose proof (do_call_step c a mem Hok Hc) as Hstep.
  assert (Hmem : snd (do_call c a mem) !! q = mem !! q).
  { destruct c as [T|T v]; simpl in *.
    - now destruct (alloc T a).
    - unfold emplace in *. destruct (alloc T a) as [[p|] a']; [|reflexivity].
      cbn [snd]. apply store_object_other. lia. }
  destruct (do_call c a mem) as [[r a'] mem']. cbn [snd] in Hmem.
  assert (Hok' : arena_ok a' /\ m_offset a <= m_offset a').
  { destruct r; [split; [apply Hstep | lia] | destruct Hstep as [_ ->]; split; [assumption | lia]]. }
  specialize (IH a' mem' (proj1 Hok') Hcs' ltac:(lia)).
  destruct (do_calls cs a' mem') as [[rs a''] mem'']. cbn [snd] in *.
  congruence.
Qed.

(** A value placed by [emplace] is found, whole, in the [sizeof(T)] bytes
    at the address returned, and no later call of the sequence writes
    over any of them. *)
Theorem emplaced_value_stays a mem cs (i : nat) (T : type_info) (v : V) (p : Z) :
  arena_ok a ->
  Forall (fun c => type_ok (type_of c)) cs ->
  cs !! i = Some (call_emplace T v) ->
  fst (fst (do_calls cs a mem)) !! i = Some (returned p) ->
  forall k, 0 <= k < size_of T ->
    snd (do_calls cs a mem) !! (p + k) = Some (v, k).
Proof.
  revert a mem i. induction cs as [|c cs IH]; intros a mem i Hok Hcs Hi Hr k Hk;
    [now rewrite lookup_nil in Hi|].
  inversion Hcs as [|? ? Hc Hcs']; subst.
  rewrite do_calls_cons in *.
  pose proof (do_call_step c a mem Hok Hc) as Hstep.
  destruct i as [|i].
  - simpl in Hi. injection Hi as ->. simpl in *. unfold emplace in *.
    destruct (alloc T a) as [[p'|] a'] eqn:Ea.
    + pose proof (memory_below_cursor_kept cs a'
                    (store_object v p' (Z.to_nat (size_of T)) mem) (p' + k)) as Hkeep.
      destruct Hstep as (_ & Hok' & _ & _ & _ & _ & _ & Hlt & Ho & _).
      destruct (do_calls cs a' (store_object v p' (Z.to_nat (size_of T)) mem))
        as [[rs a''] mem''].
      cbn [fst snd] in *. simpl in Hr. injection Hr as <-.
      rewrite (Hkeep Hok' Hcs' ltac:(lia)).
      apply store_object_byte. lia.
    + destruct (do_calls cs a' mem) as [[rs a''] mem'']. simpl in Hr. discriminate.
  - destruct (do_call c a mem) as [[r a'] mem'].
    assert (Hok' : arena_ok a').
    { destruct r; [apply Hstep | destruct Hstep as [_ ->]; assumption]. }
    specialize (IH a' mem' i Hok' Hcs' Hi).
    destruct (do_calls cs a' mem') as [[rs a''] mem'']. cbn [fst snd] in *.
    now apply IH.
Qed.

End MoreCalls.

(** An arena moved into another is given back once: after a move
    construction, destroying the old arena changes nothing and destroying
    the new one gives back the buffer, which leaves the free store as it
    was before the arena was made. *)
Theorem moved_arena_is_freed_once (max_num_bytes p : Z) (h : free_store) :
  p <> nullptr -> p ∉ h ->
  let '(a, h1) := construct max_num_bytes p h in
  let '(b, a') := move_construct a in
  b = a /\ destroy a' h1 = Some h1 /\ destroy b h1 = Some h.
Proof.
  intros Hp Hfresh. unfold construct, move_construct, exchange, destroy. simpl.
  split; [reflexivity|]. split; [reflexivity|].
  destruct (Z.eqb_spec p nullptr) as [|_]; [contradiction|].
  destruct (decide (p ∈ {[p]} ∪ h)) as [_|Hn].
  - f_equal. apply set_eq. intros x.
    rewrite elem_of_difference, elem_of_union, elem_of_singleton.
    split; [tauto|]. intros Hx. split; [tauto|]. congruence.
  - exfalso. apply Hn. apply elem_of_union. left. now apply elem_of_singleton.
Qed.

(** ** Instances *)

Lemma type_ok_8 : type_ok (mkType 8 8).
Proof. split; [simpl; lia | exists 3; split; [lia | reflexivity]]. Qed.

Lemma type_ok_4 : type_ok (mkType 4 4).
Proof. split; [simpl; lia | exists 2; split; [lia | reflexivity]]. Qed.

Lemma granted_address_is_first_aligned_witness :
  4104 mod 8 = 0 /\ 4097 <= 4104 < 4097 + 8.
Proof.
  destruct (granted_address_is_first_aligned (mkType 8 8)
              (mkArena 24 4097 4097) (mkArena 24 4097 4112) 4104)
    as (H1 & H2 & _).
  - unfold arena_ok, nullptr. simpl. lia.
  - apply type_ok_8.
  - vm_compute. reflexivity.
  - split; [exact H1 | exact H2].
Defined.

Lemma moved_from_arena_grants_nothing_witness :
  do_calls [call_alloc (V := nat) (mkType 4 4)]
    (snd (move_construct (mkArena 24 4096 4100))) ∅ =
  ([bad_alloc], snd (move_construct (mkArena 24 4096 4100)), ∅).
Proof.
  apply (proj2 (moved_from_arena_grants_nothing (mkArena 24 4096 4100)
                  [call_alloc (V := nat) (mkType 4 4)] ∅
                  ltac:(repeat constructor; simpl; lia))).
Defined.

Lemma granted_bytes_within_capacity_witness :
  let a := fst (construct 24 4096 ∅) in
  let cs := [call_alloc (mkType 4 4); call_emplace (mkType 8 8) 7%nat] in
  total_size (granted cs (fst (fst (do_calls cs a ∅)))) <=
  m_offset (arena_after cs a ∅) - m_offset a.
Proof.
  intros a cs.
  apply (granted_bytes_within_capacity a ∅ cs).
  - apply construct_ok; lia.
  - repeat constructor; simpl; try lia;
      [exists 2 | exists 3]; split; (lia || reflexivity).
Defined.

Lemma same_type_allocations_pack_witness :
  fst (fst (do_calls (replicate 4 (call_alloc (V := nat) (mkType 8 8)))
              (mkArena 24 4096 4096) ∅)) !! 2%nat = Some (returned 4112) /\
  fst (fst (do_calls (replicate 4 (call_alloc (V := nat) (mkType 8 8)))
              (mkArena 24 4096 4096) ∅)) !! 3%nat = Some bad_alloc.
Proof.
  assert (Hok : arena_ok (mkArena 24 4096 4096))
    by (unfold arena_ok, nullptr; simpl; lia).
  split.
  - apply (same_type_allocations_pack (mkType 8 8) (mkArena 24 4096 4096) ∅ 4 2 Hok
             type_ok_8 eq_refl eq_refl). lia.
  - apply (same_type_allocations_pack (mkType 8 8) (mkArena 24 4096 4096) ∅ 4 3 Hok
             type_ok_8 eq_refl eq_refl). lia.
Defined.

Lemma emplaced_value_stays_witness :
  snd (do_calls [call_emplace (mkType 8 8) 7%nat; call_emplace (mkType 4 4) 9%nat]
         (mkArena 24 4096 4096) ∅) !! (4096 + 1) = Some (7%nat, 1) /\
  snd (do_calls [call_emplace (mkType 8 8) 7%nat; call_emplace (mkType 4 4) 9%nat]
         (mkArena 24 4096 4096) ∅) !! (4096 + 7) = Some (7%nat, 7).
Proof.
  assert (Hok : arena_ok (mkArena 24 4096 4096)).
  { unfold arena_ok, nullptr. simpl. lia. }
  assert (Hcs : Forall (fun c => type_ok (type_of c))
                  [call_emplace (mkType 8 8) 7%nat; call_emplace (mkType 4 4) 9%nat]).
  { repeat constructor; simpl; try lia;
      [exists 3 | exists 2]; split; (lia || reflexivity). }
  split.
  - apply (emplaced_value_stays (mkArena 24 4096 4096) ∅ _ 0 (mkType 8 8) 7%nat 4096
             Hok Hcs); [reflexivity | vm_compute; reflexivity | simpl; lia].
  - apply (emplaced_value_stays (mkArena 24 4096 4096) ∅ _ 0 (mkType 8 8) 7%nat 4096
             Hok Hcs); [reflexivity | vm_compute; reflexivity | simpl; lia].
Defined.

Lemma moved_arena_is_freed_once_witness :
  destroy (fst (move_construct (fst (construct 8 4096 ∅)))) (snd (construct 8 4096 ∅))
  = Some ∅.
Proof.
  pose proof (moved_arena_is_freed_once 8 4096 ∅) as H. simpl in H.
  apply H; [discriminate | apply not_elem_of_empty].
Defined.

End ArenaProofs.
